(** * Resume-Scanner: the normaliser and the matcher of [app.py]

    The development embeds the two pure functions of [app.py],
    [clean_text] (lines 20-24) and [calculate_skill_match] (lines 26-41),
    and states the properties of the design document over them.

    - A Python [str] is a sequence of Unicode code points: [list N].
    - [str.lower], [re.sub], [str.strip] and [str.split] are written out
      code point by code point.  The classes [a-zA-Z] and [\s] and the
      ASCII part of the case mapping and of [\w] are concrete.  What lies
      beyond ASCII in the case mapping ([lower_ext]) and in [\w]
      ([word_ext]) is a parameter, and so is the stop-word list of
      scikit-learn ([stop_words]); what a property needs to know of them
      is a hypothesis of its section.
    - A call either returns a value or raises: [outcome].
    - [TfidfVectorizer] and [cosine_similarity] follow the algorithm that
      scikit-learn documents: tokens of two or more word characters, stop
      words removed, a sorted vocabulary fitted on both texts, term counts
      weighted by the smoothed inverse document frequency, rows normalised
      to length one, and a [ValueError] when the vocabulary is empty.
    - The arithmetic is written twice.  The definitions over the real
      numbers are the exact formula of the design document.  The module
      [Binary64] is the arithmetic of the code: the same steps on
      binary64 numbers, each row summed in the order in which
      scikit-learn stores it.  A property of the score names the one it
      is about.
    - [Dynamic.clean_text] is [clean_text] called with a value of any
      type, as Python allows: a step that cannot work on the value
      raises. *)

From Stdlib Require Import PrimFloat.
From Stdlib Require Import Reals Lra.
From Stdlib Require Import String Ascii.
From stdpp Require Import gmap sorting list.

(** ** Python strings *)

Abbreviation str := (list N).

(** A string literal, code point by code point. *)
Definition lit (s : string) : str := N_of_ascii <$> list_ascii_of_string s.

Module Char.
Local Open Scope N_scope.

(** The regular-expression class [A-Z]. *)
Definition is_upper (c : N) : bool := (0x41 <=? c) && (c <=? 0x5A).

(** The regular-expression class [a-z]. *)
Definition is_az (c : N) : bool := (0x61 <=? c) && (c <=? 0x7A).

(** The class [a-zA-Z] of line 22. *)
Definition is_ascii_letter (c : N) : bool := is_az c || is_upper c.

Definition space : N := 0x20.

(** Unicode white space: the code points for which [str.isspace] holds,
    which are also the ones [\s] matches in a [str] pattern and the ones
    [str.split()] and [str.strip()] treat as separators. *)
Definition is_space (c : N) : bool :=
  ((0x09 <=? c) && (c <=? 0x0D)) || ((0x1C <=? c) && (c <=? 0x20))
  || (c =? 0x85) || (c =? 0xA0) || (c =? 0x1680)
  || ((0x2000 <=? c) && (c <=? 0x200A))
  || (c =? 0x2028) || (c =? 0x2029) || (c =? 0x202F) || (c =? 0x205F)
  || (c =? 0x3000).

(** The ASCII part of the class [\w]: letters, digits and the underscore. *)
Definition is_ascii_word (c : N) : bool :=
  is_ascii_letter c || ((0x30 <=? c) && (c <=? 0x39)) || (c =? 0x5F).
End Char.
Export Char.

(** ** The outcome of a call *)

(** The exceptions of the modelled code.  [ValueError_empty_vocabulary] is
    the [ValueError] that [CountVectorizer._count_vocab] raises when no
    term is left after tokenising and removing the stop words ("empty
    vocabulary; perhaps the documents only contain stop words");
    [IndexError] is the error of an index beyond the end of a sequence;
    [AttributeError] is the error of a method that the value does not
    have, [TypeError] the error of an argument of the wrong type. *)
Inductive exn : Type :=
  | ValueError_empty_vocabulary
  | IndexError
  | AttributeError
  | TypeError.

Inductive outcome (A : Type) : Type :=
  | Returns (a : A)
  | Raises (e : exn).
Arguments Returns {A} a.
Arguments Raises {A} e.

(** Calls are sequenced as in the monad of exceptions: the first call
    that raises ends the computation. *)
#[global] Instance outcome_ret : MRet outcome := @Returns.

#[global] Instance outcome_bind : MBind outcome := fun A B k o =>
  match o with
  | Returns a => k a
  | Raises e => Raises e
  end.

#[global] Instance outcome_fmap : FMap outcome := fun A B f o =>
  match o with
  | Returns a => Returns (f a)
  | Raises e => Raises e
  end.

(** ** String primitives *)

Section Primitives.
(** [str.lower] beyond ASCII: the full lower-case mapping of a code point
    of 128 or more, which may be several code points long.  The mapping
    is given the text before and the text after the code point, because
    the lower case of U+03A3 depends on its neighbours. *)
Variable lower_ext : str -> str -> N -> list N.

(** [str.lower] on one code point, between [before] and [after]. *)
Definition lower_char (before after : str) (c : N) : list N :=
  if is_upper c then [(c + 32)%N]
  else if (c <? 128)%N then [c]
  else lower_ext before after c.

(** [text.lower()], from left to right; [before] is what has been read. *)
Fixpoint str_lower_from (before : str) (s : str) : str :=
  match s with
  | [] => []
  | c :: after =>
      lower_char before after c ++ str_lower_from (before ++ [c]) after
  end.

Definition str_lower (s : str) : str := str_lower_from [] s.

(** [re.sub(r'[^a-zA-Z]', ' ', text)]: every code point outside the class
    is replaced, one for one, by a space. *)
Definition sub_non_letters (s : str) : str :=
  (fun c => if is_ascii_letter c then c else space) <$> s.

(** [re.sub(r'\s+', ' ', text)]: each maximal run of white space becomes
    one space.  [in_run] tells that the previous code point was white
    space, so that the run has been replaced already. *)
Fixpoint sub_space_runs_from (in_run : bool) (s : str) : str :=
  match s with
  | [] => []
  | c :: t =>
      if is_space c
      then (if in_run then sub_space_runs_from true t
            else space :: sub_space_runs_from true t)
      else c :: sub_space_runs_from false t
  end.

Definition sub_space_runs (s : str) : str := sub_space_runs_from false s.

(** [str.lstrip()], [str.rstrip()] and [str.strip()]. *)
Fixpoint lstrip (s : str) : str :=
  match s with
  | [] => []
  | c :: t => if is_space c then lstrip t else s
  end.

Fixpoint rstrip (s : str) : str :=
  match s with
  | [] => []
  | c :: t =>
      match rstrip t with
      | [] => if is_space c then [] else [c]
      | r => c :: r
      end
  end.

Definition strip (s : str) : str := rstrip (lstrip s).

(** *** [clean_text] (app.py, lines 20-24) *)
Definition clean_text (text : str) : str :=
  let text := str_lower text in
  let text := sub_non_letters text in
  let text := strip (sub_space_runs text) in
  text.
End Primitives.

(** ** [clean_text] on a value of any type *)

(** Python checks the type of a value where the value is used.  The
    values that a caller can hand to [clean_text]: a string, a [bytes]
    object (the content of a file that was not decoded), and [None]. *)
Inductive value : Type :=
  | Str (s : str)
  | Bytes (b : list N)
  | NoneValue.

Module Dynamic.
Section Calls.
Variable lower_ext : str -> str -> N -> list N.

(** [text.lower()], line 21: [str] and [bytes] have the method, and on
    [bytes] it maps the ASCII capitals; [None] has no such attribute. *)
Definition lower (text : value) : outcome value :=
  match text with
  | Str s => Returns (Str (str_lower lower_ext s))
  | Bytes b =>
      Returns (Bytes ((fun c => if is_upper c then (c + 32)%N else c) <$> b))
  | NoneValue => Raises AttributeError
  end.

(** [re.sub(pattern, ' ', text)] with a pattern that is a [str], line 22:
    on a [str] it returns the [str] with the matches replaced; a [bytes]
    object ("cannot use a string pattern on a bytes-like object") and
    [None] ("expected string or bytes-like object") are a [TypeError]. *)
Definition re_sub (replace : str -> str) (text : value) : outcome str :=
  match text with
  | Str s => Returns (replace s)
  | Bytes _ | NoneValue => Raises TypeError
  end.

(** [clean_text(text)], lines 20-24.  After line 22 the text is a [str],
    on which the second substitution and [strip] of line 23 work. *)
Definition clean_text (text : value) : outcome str :=
  text ← lower text;
  text ← re_sub sub_non_letters text;
  let text := strip (sub_space_runs text) in
  mret text.
End Calls.
End Dynamic.

(** ** Tokens *)

Section Tokens.
Variable p : N -> bool.

(** A finished run, if there is one. *)
Definition emit (cur : str) : list str :=
  match cur with
  | [] => []
  | _ => [cur]
  end.

(** The maximal non-empty runs of code points of class [p], from left to
    right; [cur] is the run being read. *)
Fixpoint runs_from (cur : str) (s : str) : list str :=
  match s with
  | [] => emit cur
  | c :: t =>
      if p c then runs_from (cur ++ [c]) t
      else emit cur ++ runs_from [] t
  end.

Definition runs (s : str) : list str := runs_from [] s.
End Tokens.

(** [text.split()]: the maximal runs of code points that are not white
    space. *)
Definition split (text : str) : list str :=
  runs (fun c => negb (is_space c)) text.

(** The order of Python on [str]: lexicographic on the code points. *)
Fixpoint str_leb (x y : str) : bool :=
  match x, y with
  | [], _ => true
  | _ :: _, [] => false
  | a :: x', b :: y' => (a <? b)%N || ((a =? b)%N && str_leb x' y')
  end.

Definition str_le (x y : str) : Prop := str_leb x y = true.

#[global] Instance str_le_dec x y : Decision (str_le x y).
Proof. unfold str_le. apply _. Defined.

(** [sorted(...)] on a list of strings. *)
Definition sorted (l : list str) : list str := merge_sort str_le l.

(** ** The vectoriser and the similarity of scikit-learn, in exact
       arithmetic *)

(** The product of two rows over the sorted vocabulary, in the real
    numbers.  This is the formula; the sum that the code computes, in
    binary64 and in the order of storage, is [Binary64.sparse_dot]. *)
Definition dot (x y : list R) : R :=
  foldr Rplus 0%R (zip_with Rmult x y).

(** [sklearn.preprocessing.normalize(X, norm='l2')] on one row, in the
    real numbers: a row whose norm is zero is left as it is.  The code's
    [Binary64.l2_normalize] rounds the sum, the root and each quotient. *)
Definition l2_normalize (x : list R) : list R :=
  let norm := sqrt (dot x x) in
  if Req_dec_T norm 0 then x else (fun a => a / norm)%R <$> x.

(** The cosine of two rows: the product of their normalised forms. *)
Definition cosine (x y : list R) : R :=
  dot (l2_normalize x) (l2_normalize y).

(** [cosine_similarity(X, Y)]: both arguments are normalised row by row,
    then every row of the first is multiplied with every row of the
    second. *)
Definition cosine_similarity (X Y : list (list R)) : list (list R) :=
  (fun x => cosine x <$> Y) <$> X.

(** [l[i:j]] for [i <= j] within or beyond the length of [l]. *)
Definition slice {A} (i j : nat) (l : list A) : list A :=
  take (j - i) (drop i l).

(** [l[i]] for [0 <= i]: an index beyond the end is an [IndexError]. *)
Definition item_or_raise {A} (l : list A) (i : nat) : outcome A :=
  match l !! i with
  | Some a => Returns a
  | None => Raises IndexError
  end.

Section Vectorizer.
Variable lower_ext : str -> str -> N -> list N.
(** The class [\w] beyond ASCII. *)
Variable word_ext : N -> bool.
(** [ENGLISH_STOP_WORDS], the list behind [stop_words='english']. *)
Variable stop_words : gset str.

Definition is_word (c : N) : bool :=
  if (c <? 128)%N then is_ascii_word c else word_ext c.

(** [re.compile(r'(?u)\b\w\w+\b').findall(doc)]: the maximal runs of word
    characters that are at least two long. *)
Definition findall_tokens (doc : str) : list str :=
  filter (fun w => 2 <= length w) (runs is_word doc).

(** The analyser that [TfidfVectorizer(stop_words='english')] builds:
    lower-case the document, tokenise it, drop the stop words. *)
Definition analyze (doc : str) : list str :=
  filter (fun w => w ∉ stop_words) (findall_tokens (str_lower lower_ext doc)).

(** The fitted vocabulary: the distinct terms of all documents, sorted. *)
Definition vocabulary (docs : list (list str)) : list str :=
  sorted (elements (list_to_set (concat docs) : gset str)).

Definition term_count (t : str) (doc : list str) : nat :=
  length (filter (fun w => w = t) doc).

Definition document_frequency (t : str) (docs : list (list str)) : nat :=
  length (filter (fun doc => t ∈ doc) docs).

(** The smoothed inverse document frequency,
    [ln((1 + n) / (1 + df)) + 1]. *)
Definition idf (docs : list (list str)) (t : str) : R :=
  (ln ((1 + INR (length docs)) / (1 + INR (document_frequency t docs))) + 1)%R.

Definition tfidf_row (docs : list (list str)) (vocab : list str)
    (doc : list str) : list R :=
  (fun t => INR (term_count t doc) * idf docs t)%R <$> vocab.

(** The row of a document: its tf-idf weights, l2-normalised. *)
Definition weights (docs : list (list str)) (vocab : list str)
    (doc : list str) : list R :=
  l2_normalize (tfidf_row docs vocab doc).

(** [TfidfVectorizer(stop_words='english').fit_transform(raw_documents)]:
    one row of weights per document, over the vocabulary fitted on all of
    them.  An empty vocabulary is a [ValueError]. *)
Definition fit_transform (raw_documents : list str) : outcome (list (list R)) :=
  let docs := analyze <$> raw_documents in
  let vocab := vocabulary docs in
  match vocab with
  | [] => Raises ValueError_empty_vocabulary
  | _ => Returns (weights docs vocab <$> docs)
  end.

(** *** [calculate_skill_match] (app.py, lines 26-41) *)
Definition calculate_skill_match (resume_text job_description_text : str)
    : outcome (R * list str) :=
  match resume_text, job_description_text with
  | [], _ | _, [] => Returns (0%R, [])
  | _, _ =>
      vectors ← fit_transform [resume_text; job_description_text];
      row ← item_or_raise
               (cosine_similarity (slice 0 1 vectors) (slice 1 2 vectors)) 0;
      cell ← item_or_raise row 0;
      let similarity := (cell * 100)%R in
      let resume_words : gset str := list_to_set (split resume_text) in
      let job_words : gset str := list_to_set (split job_description_text) in
      let missing_skills := sorted (elements (job_words ∖ resume_words)) in
      mret (similarity, missing_skills)
  end.

(** The two values that a call on non-empty texts computes, as functions
    of the analysed documents and of the texts. *)
Definition similarity (resume_doc job_doc : list str) : R :=
  let docs := [resume_doc; job_doc] in
  let vocab := vocabulary docs in
  (cosine (weights docs vocab resume_doc) (weights docs vocab job_doc) * 100)%R.

Definition missing_terms (resume_text job_description_text : str) : list str :=
  sorted (elements ((list_to_set (split job_description_text) : gset str)
                    ∖ list_to_set (split resume_text))).
End Vectorizer.

(** ** The vectoriser and the similarity of scikit-learn, in binary64 *)

Module Binary64.
Local Open Scope float_scope.

(** A term count as a binary64 number ([int64] converted to [float64]);
    exact below 2^53. *)
Fixpoint of_count (n : nat) : float :=
  match n with
  | O => 0
  | S n => of_count n + 1
  end.

(** [np.log] at the two quotients that a call of [calculate_skill_match]
    can give: the corpus has two texts and a term is in one of them or in
    both, so that [n_samples / df] is 3/2 or 3/3.  [np.log(1.5)] is
    0.4054651081081644.  Elsewhere the table has no value. *)
Definition np_log (x : float) : float :=
  if x =? 1 then 0
  else if x =? 1.5 then 0x1.9f323ecbf984cp-2
  else nan.

(** The terms in the order in which they are first seen.
    [CountVectorizer._count_vocab] numbers the terms in this order and
    sorts the entries of each row by this number; [_sort_features] then
    renames the columns after the sorted vocabulary and leaves the
    entries where they are. *)
Fixpoint first_seen (seen : list str) (tokens : list str) : list str :=
  match tokens with
  | [] => []
  | t :: tokens =>
      if bool_decide (t ∈ seen) then first_seen seen tokens
      else t :: first_seen (t :: seen) tokens
  end.

Definition storage_order (docs : list (list str)) : list str :=
  first_seen [] (concat docs).

(** [np.log(n_samples / df) + 1], with one added to both counts. *)
Definition idf (docs : list (list str)) (t : str) : float :=
  np_log (of_count (1 + length docs)
          / of_count (1 + document_frequency t docs)) + 1.

(** The stored entries of the row of a document, each with its term:
    the count times the inverse document frequency. *)
Definition tfidf_row (docs : list (list str)) (doc : list str)
    : list (str * float) :=
  (fun t => (t, of_count (term_count t doc) * idf docs t))
    <$> filter (fun t => t ∈ doc) (storage_order docs).

(** [inplace_csr_row_normalize_l2] on one row: the squares are added
    entry after entry; a row whose sum is zero is left as it is, and
    every entry of another row is divided by the root of the sum. *)
Definition l2_normalize (row : list (str * float)) : list (str * float) :=
  let sum_ := fold_left (fun s e => s + e.2 * e.2) row 0 in
  if sum_ =? 0 then row
  else let norm := PrimFloat.sqrt sum_ in (fun e => (e.1, e.2 / norm)) <$> row.

(** The entry of a term in a row, if one is stored. *)
Definition entry (t : str) (row : list (str * float)) : option float :=
  snd <$> find (fun e => bool_decide (e.1 = t)) row.

(** The product of a row with the transpose of another, as the sparse
    product computes it: the entries of the first row are taken in their
    order, and the product of an entry with the entry of the same term
    in the second row, where there is one, is added to the sum. *)
Definition sparse_dot (x y : list (str * float)) : float :=
  fold_left (fun s e => match entry e.1 y with
                        | Some v => s + e.2 * v
                        | None => s
                        end) x 0.

(** [cosine_similarity(X, Y)]: both arguments are normalised row by row,
    then every row of the first is multiplied with every row of the
    second. *)
Definition cosine_similarity (X Y : list (list (str * float)))
    : list (list float) :=
  (fun x => (fun y => sparse_dot (l2_normalize x) (l2_normalize y)) <$> Y)
    <$> X.

Section Vectorizer.
Variable lower_ext : str -> str -> N -> list N.
Variable word_ext : N -> bool.
Variable stop_words : gset str.

(** [TfidfVectorizer(stop_words='english').fit_transform(raw_documents)]:
    one normalised row per document.  An empty vocabulary is a
    [ValueError]. *)
Definition fit_transform (raw_documents : list str)
    : outcome (list (list (str * float))) :=
  let docs := analyze lower_ext word_ext stop_words <$> raw_documents in
  match vocabulary docs with
  | [] => Raises ValueError_empty_vocabulary
  | _ => Returns ((fun doc => l2_normalize (tfidf_row docs doc)) <$> docs)
  end.

(** *** [calculate_skill_match] (app.py, lines 26-41) *)
Definition calculate_skill_match (resume_text job_description_text : str)
    : outcome (float * list str) :=
  match resume_text, job_description_text with
  | [], _ | _, [] => Returns (0, [])
  | _, _ =>
      vectors ← fit_transform [resume_text; job_description_text];
      row ← item_or_raise
               (cosine_similarity (slice 0 1 vectors) (slice 1 2 vectors)) 0;
      cell ← item_or_raise row 0;
      let similarity := cell * 100 in
      let resume_words : gset str := list_to_set (split resume_text) in
      let job_words : gset str := list_to_set (split job_description_text) in
      let missing_skills := sorted (elements (job_words ∖ resume_words)) in
      mret (similarity, missing_skills)
  end.
End Vectorizer.

(** The score that a call on non-empty texts computes, as a function of
    the analysed documents: the rows are normalised by the vectoriser and
    once more by [cosine_similarity]. *)
Definition similarity (resume_doc job_doc : list str) : float :=
  let docs := [resume_doc; job_doc] in
  sparse_dot (l2_normalize (l2_normalize (tfidf_row docs resume_doc)))
             (l2_normalize (l2_normalize (tfidf_row docs job_doc))) * 100.

Definition score_of (o : outcome (float * list str)) : outcome float :=
  fst <$> o.
End Binary64.

(** ** Tables for the examples *)

Module Latin.
Local Open Scope N_scope.

(** An excerpt of the lower-case table: the capitals of Latin-1, and the
    two code points beyond ASCII whose lower case contains an ASCII
    letter, U+0130 and U+212A.  Every other code point is left as it is,
    whatever its neighbours. *)
Definition lower_ext (before after : str) (c : N) : list N :=
  if c =? 0x130 then [0x69; 0x307]
  else if c =? 0x212A then [0x6B]
  else if (0xC0 <=? c) && (c <=? 0xDE) && negb (c =? 0xD7) then [c + 32]
  else [c].

(** An excerpt of the class [\w]: the letters of Latin-1. *)
Definition word_ext (c : N) : bool :=
  (0xC0 <=? c) && (c <=? 0xFF) && negb (c =? 0xD7) && negb (c =? 0xF7).

(** A few of the English stop words. *)
Definition stop_words : gset str :=
  list_to_set (lit <$> ["a"; "and"; "i"; "in"; "of"; "the"; "with"]%string).
End Latin.

(** ** The normal form of a text *)

(** What the design document calls a normalised text: lower-case ASCII
    letters and single spaces, with no space at either end. *)
Record NormalizedText (t : str) : Prop := {
  normalized_chars : forall c, c ∈ t -> is_az c = true \/ c = space;
  normalized_single : forall i, t !! i = Some space -> t !! S i <> Some space;
  normalized_head : head t <> Some space;
  normalized_last : last t <> Some space
}.

(** No two neighbours are both white space. *)
Fixpoint ws_separated (t : str) : Prop :=
  match t with
  | a :: (b :: _) as t' =>
      (is_space a = true -> is_space b = false) /\ ws_separated t'
  | _ => True
  end.

(** The score and the missing terms of a result. *)
Definition score_of (o : outcome (R * list str)) : outcome R :=
  fst <$> o.

Definition missing_of (o : outcome (R * list str)) : outcome (list str) :=
  snd <$> o.

(** ** The rest of [app.py]: the extractors and the page *)

(** ['sep'.join(parts)]. *)
Fixpoint str_join (sep : str) (parts : list str) : str :=
  match parts with
  | [] => []
  | p :: rest =>
      match rest with
      | [] => p
      | _ => p ++ sep ++ str_join sep rest
      end
  end.

(** What [python-docx] reads from a file: the paragraphs and their text. *)
Record Paragraph : Type := { text : str }.
Record DocxDocument : Type := { paragraphs : list Paragraph }.

(** The two sides of the comparison. *)
Inductive role : Type := Resume | JobDescription.

(** The elements that the page shows, in the order of the calls of
    [app.py]: the fixed ones of lines 44-53, 76 and 98-99, and the ones
    that depend on the files and on the button.  [Score] carries the
    number that line 86 formats with two decimals, [MissingList] the
    keywords that line 91 joins with commas. *)
Inductive ui : Type :=
  | PageConfig
  | Title
  | Intro
  | UploadSubheader
  | FileUploader (r : role)
  | Spinner (r : role)
  | ErrorUnsupported (r : role)
  | AnalyzeButton
  | ResultsSubheader
  | Score (match_score : R)
  | Divider
  | MissingSubheader
  | WarningMissing
  | MissingList (missing_skills : list str)
  | InfoAddKeywords
  | SuccessNoMissing
  | InfoCovered
  | WarningUploadBoth
  | Footer.

(** The two MIME types of lines 60 and 62. *)
Definition mime_pdf : str := lit "application/pdf".
Definition mime_docx : str :=
  lit "application/vnd.openxmlformats-officedocument.wordprocessingml.document".

Section Page.
Variable lower_ext : str -> str -> N -> list N.
Variable word_ext : N -> bool.
Variable stop_words : gset str.

(** An uploaded file and its MIME type ([UploadedFile.type]). *)
Variable File : Type.
Variable file_type : File -> str.

(** The two parsers, [pdfminer.high_level.extract_text] and
    [docx.Document]: what they return, or [None] when they raise. *)
Variable extract_text : File -> option str.
Variable Document : File -> option DocxDocument.

(** *** [extract_text_from_pdf] (app.py, lines 12-13) *)
Definition extract_text_from_pdf (pdf_file : File) : option str :=
  extract_text pdf_file.

(** *** [extract_text_from_docx] (app.py, lines 15-18) *)
Definition extract_text_from_docx (docx_file : File) : option str :=
  doc ← Document docx_file;
  let full_text := text <$> paragraphs doc in
  Some (str_join [0x0A%N] full_text).

(** Lines 55-65 for the resume and 56, 67-74 for the job description:
    the raw text starts empty; an uploaded file is extracted by its type,
    and a type that is neither of the two leaves the text empty and shows
    an error.  The result is the raw text and what was shown, or [None]
    when a parser raised. *)
Definition load_raw_text (r : role) (file : option File)
    : option (str * list ui) :=
  match file with
  | None => Some ([], [])
  | Some f =>
      if bool_decide (file_type f = mime_pdf) then
        raw ← extract_text_from_pdf f; Some (raw, [Spinner r])
      else if bool_decide (file_type f = mime_docx) then
        raw ← extract_text_from_docx f; Some (raw, [Spinner r])
      else Some ([], [Spinner r; ErrorUnsupported r])
  end.

(** Lines 77-97, the body of [if st.button("Analyze Match")]: what is
    shown when the call of the matcher returns, or the exception that the
    matcher raised. *)
Definition analyze_match (resume_raw_text job_description_raw_text : str)
    : outcome (list ui) :=
  match resume_raw_text, job_description_raw_text with
  | _ :: _, _ :: _ =>
      let cleaned_resume_text := clean_text lower_ext resume_raw_text in
      let cleaned_job_description_text :=
        clean_text lower_ext job_description_raw_text in
      result ← calculate_skill_match lower_ext word_ext stop_words
                 cleaned_resume_text cleaned_job_description_text;
      let match_score := result.1 in
      let missing_skills := result.2 in
      Returns ([ResultsSubheader; Score match_score; Divider; MissingSubheader]
               ++ match missing_skills with
                  | _ :: _ =>
                      [WarningMissing; MissingList missing_skills;
                       InfoAddKeywords]
                  | [] => [SuccessNoMissing; InfoCovered]
                  end)
  | _, _ => Returns [WarningUploadBoth]
  end.

(** The page, lines 44-99, on one run of the script: the files in the two
    uploaders and whether the button was pressed.  [None] when a parser
    raised, [Some (Raises e)] when the matcher did. *)
Definition page (resume_file job_description_file : option File)
    (analyze_pressed : bool) : option (outcome (list ui)) :=
  resume ← load_raw_text Resume resume_file;
  job ← load_raw_text JobDescription job_description_file;
  Some (shown ← (if analyze_pressed then analyze_match resume.1 job.1
                 else Returns []);
        Returns ([PageConfig; Title; Intro; UploadSubheader;
                  FileUploader Resume; FileUploader JobDescription]
                 ++ resume.2 ++ job.2 ++ [AnalyzeButton] ++ shown
                 ++ [Divider; Footer])).
End Page.

(** What lines 85-95 show for a result of the matcher. *)
Definition results_shown (result : R * list str) : list ui :=
  [ResultsSubheader; Score result.1; Divider; MissingSubheader]
  ++ match result.2 with
     | _ :: _ => [WarningMissing; MissingList result.2; InfoAddKeywords]
     | [] => [SuccessNoMissing; InfoCovered]
     end.

(** Files for the examples: a PDF with the text that is extracted from
    it, a PDF that the parser rejects, a DOCX with the text of its
    paragraphs, and a file of another type. *)
Module Upload.
Inductive file : Type :=
  | Pdf (content : str)
  | BrokenPdf
  | Docx (paras : list str)
  | Other (mime : str).

Definition file_type (f : file) : str :=
  match f with
  | Pdf _ | BrokenPdf => mime_pdf
  | Docx _ => mime_docx
  | Other mime => mime
  end.

Definition extract_text (f : file) : option str :=
  match f with
  | Pdf content => Some content
  | _ => None
  end.

Definition Document (f : file) : option DocxDocument :=
  match f with
  | Docx paras => Some {| paragraphs := Build_Paragraph <$> paras |}
  | _ => None
  end.
End Upload.

(** * Facts about the character classes *)

Section CharFacts.
Local Open Scope N_scope.

Lemma is_upper_spec c : is_upper c = true <-> 65 <= c <= 90.
Proof. unfold is_upper. rewrite andb_true_iff, !N.leb_le. lia. Qed.

Lemma is_az_spec c : is_az c = true <-> 97 <= c <= 122.
Proof. unfold is_az. rewrite andb_true_iff, !N.leb_le. lia. Qed.

Lemma is_space_spec c :
  is_space c = true <->
  (9 <= c <= 13 \/ 28 <= c <= 32 \/ c = 133 \/ c = 160 \/ c = 5760 \/
   8192 <= c <= 8202 \/ c = 8232 \/ c = 8233 \/ c = 8239 \/ c = 8287 \/
   c = 12288).
Proof.
  unfold is_space.
  rewrite !orb_true_iff, !andb_true_iff, !N.leb_le, !N.eqb_eq. tauto.
Qed.

Lemma is_ascii_word_spec c :
  is_ascii_word c = true <->
  (97 <= c <= 122 \/ 65 <= c <= 90 \/ 48 <= c <= 57 \/ c = 95).
Proof.
  unfold is_ascii_word, is_ascii_letter.
  rewrite !orb_true_iff, !andb_true_iff, is_az_spec, is_upper_spec,
    !N.leb_le, N.eqb_eq. tauto.
Qed.

Lemma is_space_space : is_space space = true.
Proof. reflexivity. Qed.

Lemma is_az_not_upper c : is_az c = true -> is_upper c = false.
Proof.
  intros H%is_az_spec. apply not_true_is_false. intros G%is_upper_spec. lia.
Qed.

Lemma is_az_not_space c : is_az c = true -> is_space c = false.
Proof.
  intros H%is_az_spec. apply not_true_is_false. intros G%is_space_spec. lia.
Qed.

Lemma is_az_ascii c : is_az c = true -> c < 128.
Proof. intros H%is_az_spec. lia. Qed.

Lemma is_space_not_word c : is_space c = true -> is_ascii_word c = false.
Proof.
  intros H%is_space_spec. apply not_true_is_false.
  intros G%is_ascii_word_spec. lia.
Qed.

Lemma is_space_not_upper c : is_space c = true -> is_upper c = false.
Proof.
  intros H%is_space_spec. apply not_true_is_false.
  intros G%is_upper_spec. lia.
Qed.

Lemma is_az_word c : is_az c = true -> is_ascii_word c = true.
Proof. intros H%is_az_spec. apply is_ascii_word_spec. lia. Qed.
End CharFacts.

(** * The normaliser *)

Section NormalizerFacts.
Variable lower_ext : str -> str -> N -> list N.

(** The lower-case mapping never yields an ASCII capital. *)
Hypothesis lower_ext_no_upper :
  forall before after c d,
    (128 <= c)%N -> d ∈ lower_ext before after c -> is_upper d = false.

Lemma lower_char_no_upper before after c d :
  d ∈ lower_char lower_ext before after c -> is_upper d = false.
Proof.
  unfold lower_char. destruct (is_upper c) eqn:Hu.
  - intros ->%list_elem_of_singleton. apply is_upper_spec in Hu.
    apply not_true_is_false. intros G%is_upper_spec. lia.
  - destruct (N.ltb_spec c 128).
    + intros ->%list_elem_of_singleton. exact Hu.
    + now apply lower_ext_no_upper.
Qed.

Lemma str_lower_from_elem before s d :
  d ∈ str_lower_from lower_ext before s ->
  exists b a c, c ∈ s /\ d ∈ lower_char lower_ext b a c.
Proof.
  revert before. induction s as [|c s IH]; intros before; simpl.
  - intros H. now apply elem_of_nil in H.
  - intros [H|H]%elem_of_app.
    + exists before, s, c. split; [left | exact H].
    + destruct (IH _ H) as (b & a & c' & Hc & Hd).
      exists b, a, c'. split; [now right | exact Hd].
Qed.

Lemma str_lower_no_upper s d :
  d ∈ str_lower lower_ext s -> is_upper d = false.
Proof.
  intros (b & a & c & _ & Hd)%str_lower_from_elem.
  now apply (lower_char_no_upper b a c).
Qed.

Lemma sub_non_letters_elem s c :
  c ∈ sub_non_letters s -> (is_ascii_letter c = true /\ c ∈ s) \/ c = space.
Proof.
  unfold sub_non_letters. intros (d & -> & Hd)%list_elem_of_fmap.
  destruct (is_ascii_letter d) eqn:E; auto.
Qed.

Lemma lowered_letters_chars s c :
  c ∈ sub_non_letters (str_lower lower_ext s) -> is_az c = true \/ c = space.
Proof.
  intros [[Hl Hc]| ->]%sub_non_letters_elem; [left | now right].
  apply str_lower_no_upper in Hc. unfold is_ascii_letter in Hl.
  rewrite Hc, orb_false_r in Hl. exact Hl.
Qed.

Lemma ws_separated_cons a t :
  ws_separated (a :: t) <->
  (forall b, head t = Some b -> is_space a = true -> is_space b = false) /\
  ws_separated t.
Proof.
  destruct t as [|b t]; simpl.
  - split; [intros _; split; [intros ? [=] | exact I] | auto].
  - split.
    + intros [H1 H2]. split; [intros ? [= <-]; exact H1 | exact H2].
    + intros [H1 H2]. split; [apply H1; reflexivity | exact H2].
Qed.

Lemma sub_space_runs_from_elem b s c :
  c ∈ sub_space_runs_from b s -> c ∈ s \/ c = space.
Proof.
  revert b. induction s as [|a s IH]; intros b; simpl.
  - intros H. now left.
  - destruct (is_space a); [destruct b |].
    + intros [H| ->]%IH; [left; now apply list_elem_of_further | now right].
    + intros [->|[H| ->]%IH]%elem_of_cons; auto.
      left; now apply list_elem_of_further.
    + intros [->|[H| ->]%IH]%elem_of_cons; auto.
      * left; apply list_elem_of_here.
      * left; now apply list_elem_of_further.
Qed.

Lemma sub_space_runs_from_head s c :
  head (sub_space_runs_from true s) = Some c -> is_space c = false.
Proof.
  induction s as [|a s IH]; simpl; [intros [=] |].
  destruct (is_space a) eqn:E; [exact IH | intros [= <-]; exact E].
Qed.

Lemma sub_space_runs_from_separated b s :
  ws_separated (sub_space_runs_from b s).
Proof.
  revert b. induction s as [|a s IH]; intros b; simpl; [exact I |].
  destruct (is_space a) eqn:E; [destruct b |].
  - apply IH.
  - apply ws_separated_cons. split; [| apply IH].
    intros c Hc _. now apply sub_space_runs_from_head in Hc.
  - apply ws_separated_cons. split; [| apply IH]. intros c _. congruence.
Qed.

Lemma lstrip_elem s c : c ∈ lstrip s -> c ∈ s.
Proof.
  induction s as [|a s IH]; simpl; [auto |].
  destruct (is_space a); [| auto]. intros H. now apply list_elem_of_further, IH.
Qed.

Lemma lstrip_head s c : head (lstrip s) = Some c -> is_space c = false.
Proof.
  induction s as [|a s IH]; simpl; [intros [=] |].
  destruct (is_space a) eqn:E; [exact IH | intros [= <-]; exact E].
Qed.

Lemma lstrip_separated s : ws_separated s -> ws_separated (lstrip s).
Proof.
  induction s as [|a s IH]; [auto |]. intros H. simpl lstrip.
  destruct (is_space a); [| exact H].
  apply IH. now apply ws_separated_cons in H as [_ H].
Qed.

Lemma rstrip_cons a s :
  rstrip (a :: s) =
  match rstrip s with
  | [] => if is_space a then [] else [a]
  | r => a :: r
  end.
Proof. reflexivity. Qed.

Lemma rstrip_elem s c : c ∈ rstrip s -> c ∈ s.
Proof.
  revert c. induction s as [|a s IH]; intros c; [auto |].
  rewrite rstrip_cons. destruct (rstrip s) as [|b r] eqn:E.
  - destruct (is_space a); [intros H; inversion H |].
    intros ->%list_elem_of_singleton. apply list_elem_of_here.
  - intros [->|H]%elem_of_cons; [apply list_elem_of_here |].
    now apply list_elem_of_further, IH.
Qed.

Lemma rstrip_head s c : head (rstrip s) = Some c -> head s = Some c.
Proof.
  destruct s as [|a s]; [auto |]. rewrite rstrip_cons.
  destruct (rstrip s); [destruct (is_space a) |]; simpl; auto. intros [=].
Qed.

Lemma rstrip_last s c : last (rstrip s) = Some c -> is_space c = false.
Proof.
  induction s as [|a s IH]; [intros [=] |]. rewrite rstrip_cons.
  destruct (rstrip s) as [|b r] eqn:E.
  - destruct (is_space a) eqn:Ea; [intros [=] | intros [= <-]; exact Ea].
  - rewrite last_cons_cons. exact IH.
Qed.

Lemma rstrip_separated s : ws_separated s -> ws_separated (rstrip s).
Proof.
  induction s as [|a s IH]; [auto |]. intros [Ha Hs]%ws_separated_cons.
  rewrite rstrip_cons. destruct (rstrip s) as [|b r] eqn:E.
  - destruct (is_space a); exact I.
  - apply ws_separated_cons. split; [| now apply IH].
    intros c Hc. apply Ha. apply rstrip_head. now rewrite E.
Qed.

Lemma ws_separated_single t :
  ws_separated t ->
  forall i, t !! i = Some space -> t !! S i <> Some space.
Proof.
  induction t as [|a t IH]; intros Ht i; [intros [=] |].
  apply ws_separated_cons in Ht as [Ha Ht]. destruct i as [|i]; simpl.
  - intros [= ->] Hb. destruct t as [|b t]; [discriminate |].
    simpl in Hb. injection Hb as ->.
    specialize (Ha space eq_refl is_space_space). discriminate.
  - now apply IH.
Qed.

(** *** The result of [clean_text] is a normalised text *)
Lemma clean_text_normalized s : NormalizedText (clean_text lower_ext s).
Proof.
  unfold clean_text, strip, sub_space_runs.
  set (u := sub_non_letters (str_lower lower_ext s)).
  assert (Hsep : ws_separated (rstrip (lstrip (sub_space_runs_from false u)))).
  { apply rstrip_separated, lstrip_separated, sub_space_runs_from_separated. }
  split.
  - intros c Hc%rstrip_elem%lstrip_elem%sub_space_runs_from_elem.
    destruct Hc as [Hc| ->]; [| now right].
    now apply (lowered_letters_chars s).
  - now apply ws_separated_single.
  - intros H%rstrip_head%lstrip_head. discriminate.
  - intros H%rstrip_last. discriminate.
Qed.

(** *** A normalised text is a fixed point of every step *)

Lemma str_lower_from_fixed before t :
  (forall c, c ∈ t -> is_az c = true \/ c = space) ->
  str_lower_from lower_ext before t = t.
Proof.
  revert before. induction t as [|a t IH]; intros before H; [reflexivity |].
  simpl. rewrite IH.
  2:{ intros c Hc. apply H. now apply list_elem_of_further. }
  unfold lower_char.
  destruct (H a (list_elem_of_here _ _)) as [Ha| ->]; [| reflexivity].
  rewrite (is_az_not_upper _ Ha).
  apply is_az_ascii in Ha. now destruct (N.ltb_spec a 128); [| lia].
Qed.

Lemma str_lower_fixed t :
  (forall c, c ∈ t -> is_az c = true \/ c = space) -> str_lower lower_ext t = t.
Proof. apply str_lower_from_fixed. Qed.

Lemma sub_non_letters_fixed t :
  (forall c, c ∈ t -> is_az c = true \/ c = space) -> sub_non_letters t = t.
Proof.
  induction t as [|a t IH]; intros H; [reflexivity |].
  unfold sub_non_letters in *. rewrite fmap_cons, IH.
  2:{ intros c Hc. apply H. now apply list_elem_of_further. }
  destruct (H a (list_elem_of_here _ _)) as [Ha| ->]; [| reflexivity].
  unfold is_ascii_letter. now rewrite Ha.
Qed.

Lemma sub_space_runs_from_fixed b t :
  ws_separated t ->
  (forall c, c ∈ t -> is_space c = true -> c = space) ->
  (b = true -> forall c, head t = Some c -> is_space c = false) ->
  sub_space_runs_from b t = t.
Proof.
  revert b. induction t as [|a t IH]; intros b Hsep Hsp Hb; [reflexivity |].
  apply ws_separated_cons in Hsep as [Ha Hsep]. simpl.
  assert (Ht : forall c, c ∈ t -> is_space c = true -> c = space).
  { intros c Hc. apply Hsp. now apply list_elem_of_further. }
  destruct (is_space a) eqn:E.
  - destruct b; [specialize (Hb eq_refl a eq_refl); congruence |].
    pose proof (Hsp a (list_elem_of_here _ _) E) as ->.
    f_equal. apply IH; auto.
  - f_equal. apply IH; auto; discriminate.
Qed.

Lemma lstrip_fixed t :
  (forall c, head t = Some c -> is_space c = false) -> lstrip t = t.
Proof.
  destruct t as [|a t]; [reflexivity |]. intros H. simpl.
  now rewrite (H a eq_refl).
Qed.

Lemma rstrip_fixed t :
  (forall c, last t = Some c -> is_space c = false) -> rstrip t = t.
Proof.
  induction t as [|a t IH]; intros H; [reflexivity |].
  rewrite rstrip_cons. destruct t as [|b t].
  - simpl. now rewrite (H a eq_refl).
  - rewrite IH; [reflexivity |]. intros c Hc. apply H.
    now rewrite last_cons_cons.
Qed.

Lemma normalized_space_only t c :
  NormalizedText t -> c ∈ t -> is_space c = true -> c = space.
Proof.
  intros Ht Hc Hs. destruct (normalized_chars t Ht c Hc) as [Ha|]; [| assumption].
  apply is_az_not_space in Ha. congruence.
Qed.

Lemma normalized_separated t : NormalizedText t -> ws_separated t.
Proof.
  intros [Hch Hsg _ _]. induction t as [|a t IH]; [exact I |].
  apply ws_separated_cons. split.
  - intros b Hb Ha. destruct t as [|b' t]; [discriminate |].
    injection Hb as ->.
    assert (a = space) as ->.
    { destruct (Hch a (list_elem_of_here _ _)) as [Haz|]; [| assumption].
      apply is_az_not_space in Haz. congruence. }
    destruct (Hch b (list_elem_of_further _ _ _ (list_elem_of_here _ _)))
      as [Hb| ->].
    + now apply is_az_not_space.
    + now destruct (Hsg 0%nat eq_refl).
  - apply IH.
    + intros c Hc. apply Hch. now apply list_elem_of_further.
    + intros i. apply (Hsg (S i)).
Qed.

Lemma clean_text_fixed t : NormalizedText t -> clean_text lower_ext t = t.
Proof.
  intros Ht. unfold clean_text, strip, sub_space_runs.
  rewrite str_lower_fixed, sub_non_letters_fixed
    by apply (normalized_chars t Ht).
  rewrite sub_space_runs_from_fixed.
  - rewrite lstrip_fixed, rstrip_fixed; [reflexivity | |].
    + intros c Hc. apply not_true_is_false. intros Hs.
      assert (c = space) as ->.
      { apply (normalized_space_only t); auto.
        apply last_Some in Hc as [l ->]. apply elem_of_app. right.
        apply list_elem_of_here. }
      now apply (normalized_last t Ht).
    + intros c Hc. apply not_true_is_false. intros Hs.
      assert (c = space) as ->.
      { apply (normalized_space_only t); auto.
        destruct t; [discriminate |]. injection Hc as ->.
        apply list_elem_of_here. }
      now apply (normalized_head t Ht).
  - now apply normalized_separated.
  - intros c. now apply normalized_space_only.
  - discriminate.
Qed.

(** *** Texts without letters *)

Lemma lstrip_all_space s :
  (forall c, c ∈ s -> is_space c = true) -> lstrip s = [].
Proof.
  induction s as [|a s IH]; intros H; [reflexivity |]. simpl.
  rewrite (H a (list_elem_of_here _ _)). apply IH.
  intros c Hc. apply H. now apply list_elem_of_further.
Qed.

Lemma clean_text_no_letters s :
  (forall before after c d,
      c ∈ s -> d ∈ lower_char lower_ext before after c ->
      is_ascii_letter d = false) ->
  clean_text lower_ext s = [].
Proof.
  intros H. unfold clean_text, strip, sub_space_runs.
  rewrite lstrip_all_space; [reflexivity |].
  intros c [Hc| ->]%sub_space_runs_from_elem; [| reflexivity].
  apply sub_non_letters_elem in Hc as [[Hl Hc]| ->]; [| reflexivity].
  apply str_lower_from_elem in Hc as (b & a & c' & Hc' & Hc).
  rewrite (H b a c' c Hc' Hc) in Hl. discriminate.
Qed.
End NormalizerFacts.

(** * The order on strings and [sorted] *)

Section Order.
Lemma str_leb_cons a x b y :
  str_leb (a :: x) (b :: y) = true <->
  (a < b)%N \/ (a = b /\ str_leb x y = true).
Proof.
  simpl. now rewrite orb_true_iff, andb_true_iff, N.ltb_lt, N.eqb_eq.
Qed.

Lemma str_leb_total x y : str_leb x y = true \/ str_leb y x = true.
Proof.
  revert y. induction x as [|a x IH]; intros [|b y];
    [now left | now left | now right |].
  rewrite !str_leb_cons.
  destruct (IH y); destruct (N.lt_trichotomy a b) as [|[|]]; auto.
Qed.

Lemma str_leb_trans x y z :
  str_leb x y = true -> str_leb y z = true -> str_leb x z = true.
Proof.
  revert y z. induction x as [|a x IH]; intros [|b y] [|c z]; try easy.
  rewrite !str_leb_cons. intros [?|[-> ?]] [?|[-> ?]]; eauto.
  left; lia.
Qed.

Lemma str_leb_antisym x y :
  str_leb x y = true -> str_leb y x = true -> x = y.
Proof.
  revert y. induction x as [|a x IH]; intros [|b y]; try easy.
  rewrite !str_leb_cons. intros [?|[-> ?]] [?|[? ?]]; try lia.
  f_equal. now apply IH.
Qed.

#[global] Instance str_le_total : Total str_le.
Proof. intros x y. apply str_leb_total. Qed.

#[global] Instance str_le_trans : Transitive str_le.
Proof. intros x y z. apply str_leb_trans. Qed.

#[global] Instance str_le_antisym : AntiSymm (=) str_le.
Proof. intros x y. apply str_leb_antisym. Qed.

Lemma sorted_permutation l : sorted l ≡ₚ l.
Proof. apply merge_sort_Permutation. Qed.

Lemma sorted_strongly l : StronglySorted str_le (sorted l).
Proof. apply StronglySorted_merge_sort; apply _. Qed.

Lemma sorted_elem l w : w ∈ sorted l <-> w ∈ l.
Proof. now rewrite sorted_permutation. Qed.

Lemma sorted_NoDup l : NoDup l -> NoDup (sorted l).
Proof. now rewrite sorted_permutation. Qed.
End Order.

(** * Real arithmetic of the rows *)

Section Rows.
Local Open Scope R_scope.

Lemma dot_nil_l y : dot [] y = 0.
Proof. reflexivity. Qed.

Lemma dot_nil_r x : dot x [] = 0.
Proof. now destruct x. Qed.

Lemma dot_cons a x b y : dot (a :: x) (b :: y) = a * b + dot x y.
Proof. reflexivity. Qed.


Lemma dot_self_nonneg x : 0 <= dot x x.
Proof.
  induction x as [|a x IH]; [unfold dot; simpl; lra |].
  rewrite dot_cons. nra.
Qed.

Lemma dot_nonneg x y :
  Forall (Rle 0) x -> Forall (Rle 0) y -> 0 <= dot x y.
Proof.
  intros Hx. revert y. induction Hx as [|a x Ha Hx IH]; intros y Hy.
  - rewrite dot_nil_l. lra.
  - destruct Hy as [|b y Hb Hy]; [rewrite dot_nil_r; lra |].
    rewrite dot_cons. specialize (IH y Hy). nra.
Qed.


(** The inequality of Cauchy and Schwarz. *)
Lemma cauchy_schwarz x y : dot x y * dot x y <= dot x x * dot y y.
Proof.
  revert y. induction x as [|a x IH]; intros y.
  - rewrite !dot_nil_l. pose proof (dot_self_nonneg y). nra.
  - destruct y as [|b y].
    + rewrite !dot_nil_r. pose proof (dot_self_nonneg (a :: x)). nra.
    + rewrite !dot_cons. specialize (IH y).
      pose proof (dot_self_nonneg x) as Hx.
      pose proof (dot_self_nonneg y) as Hy.
      set (S := dot x y) in *. set (X := dot x x) in *. set (Y := dot y y) in *.
      assert (HaY : 0 <= a * a * Y) by (apply Rmult_le_pos; [nra | exact Hy]).
      assert (HbX : 0 <= b * b * X) by (apply Rmult_le_pos; [nra | exact Hx]).
      assert (H2 : 2 * (a * b) * S <= a * a * Y + b * b * X).
      { destruct (Rle_dec (2 * (a * b) * S) 0) as [Hn|Hp]; [lra |].
        apply Rnot_le_lt in Hp.
        assert (Hq : (2 * (a * b) * S) * (2 * (a * b) * S)
                     <= (a * a * Y + b * b * X) * (a * a * Y + b * b * X)).
        { assert (Hm : (a * a) * (b * b) * (S * S)
                       <= (a * a) * (b * b) * (X * Y)).
          { apply Rmult_le_compat_l; [| exact IH].
            apply Rmult_le_pos; nra. }
          pose proof (Rle_0_sqr (a * a * Y - b * b * X)) as Hd.
          unfold Rsqr in Hd. nra. }
        apply Rnot_lt_le. intros Hlt.
        assert ((a * a * Y + b * b * X) * (a * a * Y + b * b * X)
                < (2 * (a * b) * S) * (2 * (a * b) * S)).
        { apply Rmult_le_0_lt_compat; lra. }
        lra. }
      lra || nra.
Qed.

Lemma dot_scale n m x y :
  dot ((fun a => a / n) <$> x) ((fun b => b / m) <$> y) = dot x y / n / m.
Proof.
  revert y. induction x as [|a x IH]; intros [|b y];
    rewrite ?fmap_nil, ?fmap_cons, ?dot_nil_l, ?dot_nil_r;
    try (unfold Rdiv; lra).
  rewrite !dot_cons, IH. unfold Rdiv. lra.
Qed.

Lemma l2_normalize_zero x : dot x x = 0 -> l2_normalize x = x.
Proof.
  intros H. unfold l2_normalize. rewrite H, sqrt_0.
  now destruct (Req_dec_T 0 0).
Qed.

Lemma l2_normalize_unit x :
  dot x x <> 0 -> dot (l2_normalize x) (l2_normalize x) = 1.
Proof.
  intros H. pose proof (dot_self_nonneg x) as Hx.
  assert (Hs : 0 < sqrt (dot x x)) by (apply sqrt_lt_R0; lra).
  unfold l2_normalize. destruct (Req_dec_T (sqrt (dot x x)) 0) as [E|_]; [lra |].
  rewrite dot_scale. rewrite <- (sqrt_sqrt (dot x x)) at 1 by exact Hx.
  field. lra.
Qed.

Lemma l2_normalize_norm_le x : dot (l2_normalize x) (l2_normalize x) <= 1.
Proof.
  destruct (Req_dec_T (dot x x) 0) as [E|E].
  - rewrite (l2_normalize_zero x E), E. lra.
  - rewrite (l2_normalize_unit x E). lra.
Qed.

Lemma l2_normalize_nonneg x :
  Forall (Rle 0) x -> Forall (Rle 0) (l2_normalize x).
Proof.
  intros H. unfold l2_normalize.
  destruct (Req_dec_T (sqrt (dot x x)) 0) as [_|E]; [exact H |].
  assert (Hs : 0 < sqrt (dot x x)).
  { pose proof (sqrt_pos (dot x x)). lra. }
  apply Forall_fmap. eapply Forall_impl; [exact H |].
  intros a Ha. simpl. apply Rmult_le_pos; [exact Ha |].
  left. now apply Rinv_0_lt_compat.
Qed.


Lemma cosine_le_1 x y : cosine x y <= 1.
Proof.
  unfold cosine.
  pose proof (cauchy_schwarz (l2_normalize x) (l2_normalize y)) as H.
  pose proof (l2_normalize_norm_le x) as Hx.
  pose proof (l2_normalize_norm_le y) as Hy.
  pose proof (dot_self_nonneg (l2_normalize x)) as Hx0.
  pose proof (dot_self_nonneg (l2_normalize y)) as Hy0.
  apply Rnot_lt_le. intros Hlt. nra.
Qed.

Lemma cosine_nonneg x y :
  Forall (Rle 0) x -> Forall (Rle 0) y -> 0 <= cosine x y.
Proof. intros Hx Hy. apply dot_nonneg; now apply l2_normalize_nonneg. Qed.

End Rows.

(** * Runs of a character class *)

Section RunsFacts.
(** A code point outside the class ends the run on its left and starts a
    fresh one on its right. *)
Lemma runs_from_app_sep p cur s1 c s2 :
  p c = false ->
  runs_from p cur (s1 ++ c :: s2) = runs_from p cur s1 ++ runs_from p [] s2.
Proof.
  intros Hc. revert cur. induction s1 as [|a s1 IH]; intros cur; simpl.
  - now rewrite Hc.
  - destruct (p a); [apply IH |]. now rewrite IH, app_assoc.
Qed.

(** Two classes that agree on the code points of a text cut it alike. *)
Lemma runs_from_ext p q cur s :
  (forall c, c ∈ s -> p c = q c) -> runs_from p cur s = runs_from q cur s.
Proof.
  revert cur. induction s as [|a s IH]; intros cur H; [reflexivity |].
  simpl. rewrite <- (H a (list_elem_of_here _ _)).
  assert (Hs : forall c, c ∈ s -> p c = q c).
  { intros c Hc. apply H. now apply list_elem_of_further. }
  destruct (p a); now rewrite IH.
Qed.

Lemma filter_flat_map {A B} (P : B -> Prop) `{!forall b, Decision (P b)}
    (f : A -> list B) l :
  filter P (flat_map f l) = flat_map (fun a => filter P (f a)) l.
Proof.
  induction l as [|a l IH]; [reflexivity |]. simpl.
  now rewrite filter_app, IH.
Qed.
End RunsFacts.

(** * The matcher *)

Lemma analyze_eq lower_ext word_ext stop_words doc :
  analyze lower_ext word_ext stop_words doc =
  filter (fun w => w ∉ stop_words)
    (findall_tokens word_ext (str_lower lower_ext doc)).
Proof. reflexivity. Qed.

Section MatcherFacts.
Variable lower_ext : str -> str -> N -> list N.
Variable word_ext : N -> bool.
Variable stop_words : gset str.

Local Abbreviation analyze := (analyze lower_ext word_ext stop_words).
Local Abbreviation calculate_skill_match :=
  (calculate_skill_match lower_ext word_ext stop_words).

(** A call on two non-empty texts: the vectoriser raises on an empty
    vocabulary, otherwise the call returns the similarity and the missing
    terms. *)
Lemma calculate_skill_match_nonempty a b :
  a <> [] -> b <> [] ->
  calculate_skill_match a b =
  match vocabulary [analyze a; analyze b] with
  | [] => Raises ValueError_empty_vocabulary
  | _ => Returns (similarity (analyze a) (analyze b), missing_terms a b)
  end.
Proof.
  intros Ha Hb. destruct a as [|c a]; [done |]. destruct b as [|d b]; [done |].
  unfold calculate_skill_match, fit_transform, similarity. simpl fmap.
  destruct (vocabulary _) as [|t vocab]; reflexivity.
Qed.

Lemma calculate_skill_match_empty_l b :
  calculate_skill_match [] b = Returns (0%R, []).
Proof. reflexivity. Qed.

Lemma calculate_skill_match_empty_r a :
  calculate_skill_match a [] = Returns (0%R, []).
Proof. now destruct a. Qed.

End MatcherFacts.

(** * The vocabulary, the weights and the missing terms *)

Section VectorFacts.

Lemma vocabulary_elem docs t :
  t ∈ vocabulary docs <-> exists doc, doc ∈ docs /\ t ∈ doc.
Proof.
  unfold vocabulary.
  rewrite sorted_elem, elem_of_elements, elem_of_list_to_set.
  rewrite list_elem_of_In, in_concat. setoid_rewrite list_elem_of_In.
  split; intros (doc & H1 & H2); exists doc; tauto.
Qed.

Lemma vocabulary_nil docs :
  vocabulary docs = [] <-> forall doc, doc ∈ docs -> doc = [].
Proof.
  split.
  - intros H doc Hd. destruct doc as [|t doc]; [reflexivity |].
    assert (Ht : t ∈ vocabulary docs).
    { apply vocabulary_elem. exists (t :: doc). split; [done | left]. }
    rewrite H in Ht. now apply elem_of_nil in Ht.
  - intros H. apply elem_of_nil_inv. intros t (doc & Hd & Ht)%vocabulary_elem.
    rewrite (H doc Hd) in Ht. now apply elem_of_nil in Ht.
Qed.

Lemma vocabulary_proper docs1 docs2 :
  (forall t, t ∈ concat docs1 <-> t ∈ concat docs2) ->
  vocabulary docs1 = vocabulary docs2.
Proof.
  intros H. unfold vocabulary. f_equal. f_equal.
  apply set_eq. intros t. now rewrite !elem_of_list_to_set.
Qed.





(** *** The missing terms *)

Lemma missing_terms_elem a b w :
  w ∈ missing_terms a b <-> w ∈ split b /\ w ∉ split a.
Proof.
  unfold missing_terms.
  now rewrite sorted_elem, elem_of_elements, elem_of_difference,
    !elem_of_list_to_set.
Qed.

Lemma missing_terms_sorted a b : StronglySorted str_le (missing_terms a b).
Proof. apply sorted_strongly. Qed.

Lemma missing_terms_NoDup a b : NoDup (missing_terms a b).
Proof. apply sorted_NoDup, NoDup_elements. Qed.


(** *** The weights are not negative *)

Lemma document_frequency_le t docs :
  (document_frequency t docs <= length docs)%nat.
Proof. apply length_filter. Qed.

Lemma idf_ge_1 docs t : (1 <= idf docs t)%R.
Proof.
  unfold idf. pose proof (document_frequency_le t docs) as Hle%le_INR.
  pose proof (pos_INR (document_frequency t docs)) as Hdf.
  set (n := INR (length docs)) in *.
  set (d := INR (document_frequency t docs)) in *.
  assert (Hr : (1 <= (1 + n) / (1 + d))%R).
  { apply Rmult_le_reg_r with (1 + d)%R; [lra |].
    unfold Rdiv. rewrite Rmult_assoc, Rinv_l by lra. lra. }
  destruct Hr as [Hr|Hr].
  - pose proof (ln_increasing 1 ((1 + n) / (1 + d)) Rlt_0_1 Hr) as Hl.
    rewrite ln_1 in Hl. lra.
  - rewrite <- Hr, ln_1. lra.
Qed.

Lemma tfidf_row_nonneg docs vocab doc :
  Forall (Rle 0) (tfidf_row docs vocab doc).
Proof.
  unfold tfidf_row. apply Forall_fmap, Forall_forall. intros t _. simpl.
  pose proof (idf_ge_1 docs t). pose proof (pos_INR (term_count t doc)).
  apply Rmult_le_pos; lra.
Qed.

Lemma weights_nonneg docs vocab doc : Forall (Rle 0) (weights docs vocab doc).
Proof. apply l2_normalize_nonneg, tfidf_row_nonneg. Qed.

(** The similarity is a percentage. *)
Lemma similarity_range da db : (0 <= similarity da db <= 100)%R.
Proof.
  unfold similarity.
  pose proof (cosine_le_1 (weights [da; db] (vocabulary [da; db]) da)
                (weights [da; db] (vocabulary [da; db]) db)).
  pose proof (cosine_nonneg _ _
                (weights_nonneg [da; db] (vocabulary [da; db]) da)
                (weights_nonneg [da; db] (vocabulary [da; db]) db)).
  lra.
Qed.

(** *** A document against itself *)




(** *** The score depends on the bags of terms only *)

Lemma term_count_proper t doc doc' :
  doc ≡ₚ doc' -> term_count t doc = term_count t doc'.
Proof. intros H. unfold term_count. now rewrite H. Qed.

Lemma document_frequency_proper t da db da' db' :
  da ≡ₚ da' -> db ≡ₚ db' ->
  document_frequency t [da; db] = document_frequency t [da'; db'].
Proof.
  intros Ha Hb. unfold document_frequency. rewrite !filter_cons, !filter_nil.
  repeat case_decide; try reflexivity;
    rewrite ?Ha, ?Hb in *; rewrite <- ?Ha, <- ?Hb in *; tauto.
Qed.

Lemma vocabulary_permutation da db da' db' :
  da ≡ₚ da' -> db ≡ₚ db' -> vocabulary [da; db] = vocabulary [da'; db'].
Proof.
  intros Ha Hb. apply vocabulary_proper. intros t. simpl.
  now rewrite Ha, Hb.
Qed.

Lemma weights_permutation da db da' db' vocab doc doc' :
  da ≡ₚ da' -> db ≡ₚ db' -> doc ≡ₚ doc' ->
  weights [da; db] vocab doc = weights [da'; db'] vocab doc'.
Proof.
  intros Ha Hb Hd. unfold weights, tfidf_row, idf. f_equal.
  apply list_fmap_ext. intros _ t _.
  now rewrite (term_count_proper t doc doc' Hd),
    (document_frequency_proper t da db da' db' Ha Hb).
Qed.

Lemma similarity_permutation da db da' db' :
  da ≡ₚ da' -> db ≡ₚ db' -> similarity da db = similarity da' db'.
Proof.
  intros Ha Hb. unfold similarity.
  rewrite (vocabulary_permutation da db da' db' Ha Hb).
  now rewrite (weights_permutation da db da' db' _ da da' Ha Hb Ha),
    (weights_permutation da db da' db' _ db db' Ha Hb Hb).
Qed.

End VectorFacts.

(** * The analyser works token by token *)

Section NormalizedAnalysis.
Variable lower_ext : str -> str -> N -> list N.
Variable word_ext : N -> bool.
Variable stop_words : gset str.

Local Abbreviation analyze := (analyze lower_ext word_ext stop_words).

(** In a normalised text the word characters are the code points that are
    not white space. *)
Lemma normalized_word_class x c :
  NormalizedText x -> c ∈ x -> is_word word_ext c = negb (is_space c).
Proof.
  intros Hx Hc. destruct (normalized_chars x Hx c Hc) as [Ha| ->];
    [| reflexivity].
  rewrite (is_az_not_space c Ha). unfold is_word.
  pose proof (is_az_ascii c Ha). destruct (N.ltb_spec c 128); [| lia].
  now apply is_az_word.
Qed.

(** The terms of a normalised text are its tokens of two letters or more
    that are not stop words. *)
Lemma analyze_normalized x :
  NormalizedText x ->
  analyze x =
  filter (fun w => w ∉ stop_words) (filter (fun w => 2 <= length w) (split x)).
Proof.
  intros Hx. rewrite analyze_eq.
  rewrite (str_lower_fixed lower_ext x (normalized_chars x Hx)).
  unfold findall_tokens, split, runs. do 2 f_equal.
  apply runs_from_ext. intros c Hc. now apply (normalized_word_class x).
Qed.

End NormalizedAnalysis.

Section AnalyzerFacts.
Variable lower_ext : str -> str -> N -> list N.
Variable word_ext : N -> bool.
Variable stop_words : gset str.

Local Abbreviation analyze := (analyze lower_ext word_ext stop_words).

(** White space has no case. *)
Hypothesis lower_ext_space :
  forall before after c,
    (128 <= c)%N -> is_space c = true -> lower_ext before after c = [c].

(** What lies beyond the nearest white space, on either side, does not
    matter to the lower case of a code point. *)
Hypothesis lower_ext_before :
  forall far sp before after c,
    is_space sp = true ->
    lower_ext (far ++ sp :: before) after c = lower_ext before after c.
Hypothesis lower_ext_after :
  forall before after sp far c,
    is_space sp = true ->
    lower_ext before (after ++ sp :: far) c = lower_ext before after c.

(** White space is not a word character. *)
Hypothesis word_ext_space :
  forall c, (128 <= c)%N -> is_space c = true -> word_ext c = false.

Lemma lower_char_space before after c :
  is_space c = true -> lower_char lower_ext before after c = [c].
Proof.
  intros Hs. unfold lower_char. rewrite (is_space_not_upper c Hs).
  destruct (N.ltb_spec c 128); [reflexivity | now apply lower_ext_space].
Qed.

Lemma is_word_space c : is_space c = true -> is_word word_ext c = false.
Proof.
  intros Hs. unfold is_word. destruct (N.ltb_spec c 128).
  - now apply is_space_not_word.
  - now apply word_ext_space.
Qed.

Lemma lower_char_before far sp before after c :
  is_space sp = true ->
  lower_char lower_ext (far ++ sp :: before) after c
  = lower_char lower_ext before after c.
Proof. intros Hs. unfold lower_char. now rewrite lower_ext_before. Qed.

Lemma lower_char_after before after sp far c :
  is_space sp = true ->
  lower_char lower_ext before (after ++ sp :: far) c
  = lower_char lower_ext before after c.
Proof. intros Hs. unfold lower_char. now rewrite lower_ext_after. Qed.

Lemma str_lower_from_before far sp before s :
  is_space sp = true ->
  str_lower_from lower_ext (far ++ sp :: before) s
  = str_lower_from lower_ext before s.
Proof.
  intros Hs. revert before. induction s as [|c s IH]; intros before;
    [reflexivity |].
  simpl. rewrite (lower_char_before _ _ _ _ _ Hs). f_equal.
  rewrite <- app_assoc. simpl. apply IH.
Qed.

(** Lower-casing goes through white space: the two sides do not see each
    other. *)
Lemma str_lower_from_sep before x sp y :
  is_space sp = true ->
  str_lower_from lower_ext before (x ++ sp :: y)
  = str_lower_from lower_ext before x ++ sp :: str_lower lower_ext y.
Proof.
  intros Hs. revert before. induction x as [|c x IH]; intros before; simpl.
  - rewrite (lower_char_space _ _ _ Hs). simpl. f_equal.
    apply (str_lower_from_before before sp [] y Hs).
  - rewrite (lower_char_after _ _ _ _ _ Hs), IH. now rewrite <- app_assoc.
Qed.

Lemma findall_tokens_app_sep s1 c s2 :
  is_word word_ext c = false ->
  findall_tokens word_ext (s1 ++ c :: s2) =
  findall_tokens word_ext s1 ++ findall_tokens word_ext s2.
Proof.
  intros Hc. unfold findall_tokens, runs.
  now rewrite runs_from_app_sep, filter_app.
Qed.

Lemma findall_lower_runs cur s :
  findall_tokens word_ext (str_lower lower_ext (cur ++ s)) =
  flat_map (fun w => findall_tokens word_ext (str_lower lower_ext w))
    (runs_from (fun c => negb (is_space c)) cur s).
Proof.
  revert cur. induction s as [|a s IH]; intros cur; simpl.
  - rewrite app_nil_r. destruct cur; simpl; [reflexivity |].
    now rewrite app_nil_r.
  - destruct (is_space a) eqn:Ea; simpl.
    + rewrite flat_map_app, <- (IH []). simpl app.
      unfold str_lower at 1. rewrite (str_lower_from_sep [] cur a s Ea).
      rewrite (findall_tokens_app_sep _ a _ (is_word_space a Ea)). f_equal.
      destruct cur; simpl; [reflexivity | now rewrite app_nil_r].
    + rewrite <- (IH (cur ++ [a])), <- app_assoc. reflexivity.
Qed.

(** The terms of a text are the terms of its white-space tokens. *)
Lemma analyze_split s : analyze s = flat_map analyze (split s).
Proof.
  rewrite analyze_eq.
  erewrite flat_map_ext by (intros w; apply analyze_eq).
  rewrite <- (filter_flat_map (fun w => w ∉ stop_words)).
  f_equal. apply (findall_lower_runs [] s).
Qed.

Lemma analyze_permutation a a' :
  split a ≡ₚ split a' -> analyze a ≡ₚ analyze a'.
Proof.
  intros H. rewrite (analyze_split a), (analyze_split a').
  now apply Permutation_flat_map.
Qed.
End AnalyzerFacts.

(** * The tables of the examples *)

Section LatinFacts.
Local Open Scope N_scope.

Ltac table_cases :=
  repeat match goal with
         | |- context [N.eqb ?a ?b] => destruct (N.eqb_spec a b)
         | |- context [N.leb ?a ?b] => destruct (N.leb_spec a b)
         end; simpl.

Lemma latin_lower_ext_no_upper before after c d :
  128 <= c -> d ∈ Latin.lower_ext before after c -> is_upper d = false.
Proof.
  intros Hc. unfold Latin.lower_ext. table_cases;
    rewrite ?elem_of_cons, ?elem_of_nil; intros Hd;
    apply not_true_is_false; intros Hu%is_upper_spec; lia.
Qed.

Lemma latin_lower_ext_space before after c :
  128 <= c -> is_space c = true -> Latin.lower_ext before after c = [c].
Proof.
  intros Hc Hs%is_space_spec. unfold Latin.lower_ext.
  table_cases; try reflexivity; lia.
Qed.

Lemma latin_lower_ext_before far sp before after c :
  is_space sp = true ->
  Latin.lower_ext (far ++ sp :: before) after c
  = Latin.lower_ext before after c.
Proof. reflexivity. Qed.

Lemma latin_lower_ext_after before after sp far c :
  is_space sp = true ->
  Latin.lower_ext before (after ++ sp :: far) c
  = Latin.lower_ext before after c.
Proof. reflexivity. Qed.

Lemma latin_word_ext_space c :
  128 <= c -> is_space c = true -> Latin.word_ext c = false.
Proof.
  intros Hc Hs%is_space_spec. unfold Latin.word_ext.
  table_cases; try reflexivity; lia.
Qed.
End LatinFacts.

(** * The properties of the normaliser *)

Section NormalizerClaims.
Variable lower_ext : str -> str -> N -> list N.

(** Lower-casing never produces an ASCII capital. *)
Hypothesis lower_ext_no_upper :
  forall before after c d,
    (128 <= c)%N -> d ∈ lower_ext before after c -> is_upper d = false.

Local Abbreviation clean_text := (clean_text lower_ext).

(** C4: for every input string, the result of [clean_text] contains only
    the letters a to z and the space, has no two spaces in a row, and
    neither starts nor ends with a space. *)
Theorem clean_text_output_normalized s :
  (forall c, c ∈ clean_text s -> is_az c = true \/ c = space) /\
  (forall i, clean_text s !! i = Some space -> clean_text s !! S i <> Some space) /\
  head (clean_text s) <> Some space /\
  last (clean_text s) <> Some space.
Proof.
  destruct (clean_text_normalized lower_ext lower_ext_no_upper s)
    as [Hchars Hsingle Hhead Hlast].
  auto.
Qed.

(** What is not a string makes [clean_text] raise: [None] at line 21, a
    [bytes] object at line 22. *)
Lemma clean_text_returns_on_strings_only text t :
  Dynamic.clean_text lower_ext text = Returns t -> exists s, text = Str s.
Proof.
  destruct text as [s|b|]; [now exists s | discriminate | discriminate].
Qed.


(** C9: [clean_text] is idempotent. *)
Theorem clean_text_idempotent s : clean_text (clean_text s) = clean_text s.
Proof.
  apply clean_text_fixed. now apply clean_text_normalized.
Qed.
End NormalizerClaims.

(** C4 on a line of a resume, with the tables of [Latin]. *)
Lemma clean_text_output_normalized_witness :
  (forall before after c d,
      (128 <= c)%N -> d ∈ Latin.lower_ext before after c ->
      is_upper d = false) /\
  ((forall c, c ∈ clean_text Latin.lower_ext (lit "  Senior C++/Go Dev, 2019 ")
              -> is_az c = true \/ c = space) /\
   (forall i, clean_text Latin.lower_ext (lit "  Senior C++/Go Dev, 2019 ") !! i
              = Some space ->
              clean_text Latin.lower_ext (lit "  Senior C++/Go Dev, 2019 ") !! S i
              <> Some space) /\
   head (clean_text Latin.lower_ext (lit "  Senior C++/Go Dev, 2019 "))
     <> Some space /\
   last (clean_text Latin.lower_ext (lit "  Senior C++/Go Dev, 2019 "))
     <> Some space).
Proof.
  split; [exact latin_lower_ext_no_upper |].
  apply (clean_text_output_normalized Latin.lower_ext latin_lower_ext_no_upper).
Defined.


(** C9 on a job title. *)
Lemma clean_text_idempotent_witness :
  (forall before after c d,
      (128 <= c)%N -> d ∈ Latin.lower_ext before after c ->
      is_upper d = false) /\
  clean_text Latin.lower_ext (clean_text Latin.lower_ext (lit "Data  Engineer (SQL)"))
  = clean_text Latin.lower_ext (lit "Data  Engineer (SQL)").
Proof.
  split; [exact latin_lower_ext_no_upper |].
  apply (clean_text_idempotent Latin.lower_ext latin_lower_ext_no_upper).
Defined.

(** * The matcher in binary64 *)

Section Binary64Facts.
Variable lower_ext : str -> str -> N -> list N.
Variable word_ext : N -> bool.
Variable stop_words : gset str.

Local Abbreviation analyze := (analyze lower_ext word_ext stop_words).

(** A call on two non-empty texts: the vectoriser raises when no term is
    left, and otherwise the call returns the score of the two analysed
    texts and the missing terms. *)
Lemma binary64_calculate_skill_match_nonempty a b :
  a <> [] -> b <> [] ->
  Binary64.calculate_skill_match lower_ext word_ext stop_words a b =
  match vocabulary [analyze a; analyze b] with
  | [] => Raises ValueError_empty_vocabulary
  | _ => Returns (Binary64.similarity (analyze a) (analyze b),
                  missing_terms a b)
  end.
Proof.
  intros Ha Hb. destruct a as [|c a]; [done |]. destruct b as [|d b]; [done |].
  unfold Binary64.calculate_skill_match, Binary64.fit_transform.
  rewrite !fmap_cons, fmap_nil.
  destruct (vocabulary _); reflexivity.
Qed.

(** The rounding has no part in what a call raises and in the missing terms
    it returns: they are those of the call in exact arithmetic. *)
Lemma binary64_outcome a b :
  snd <$> Binary64.calculate_skill_match lower_ext word_ext stop_words a b
  = missing_of (calculate_skill_match lower_ext word_ext stop_words a b).
Proof.
  destruct a as [|c a]; [reflexivity |].
  destruct b as [|d b]; [reflexivity |].
  rewrite binary64_calculate_skill_match_nonempty by done.
  rewrite calculate_skill_match_nonempty by done.
  destruct (vocabulary _); reflexivity.
Qed.


(** The rows of two texts depend on the texts through the order in which
    the terms are first seen and through the number of times each term
    occurs. *)
Lemma binary64_tfidf_row_permutation da db da' db' doc doc' :
  da ≡ₚ da' -> db ≡ₚ db' -> doc ≡ₚ doc' ->
  Binary64.storage_order [da; db] = Binary64.storage_order [da'; db'] ->
  Binary64.tfidf_row [da; db] doc = Binary64.tfidf_row [da'; db'] doc'.
Proof.
  intros Ha Hb Hd Ho. unfold Binary64.tfidf_row. rewrite Ho.
  rewrite (list_filter_iff (fun t => t ∈ doc) (fun t => t ∈ doc'))
    by (intros t; now rewrite Hd).
  apply list_fmap_ext. intros _ t _. f_equal. unfold Binary64.idf. simpl.
  now rewrite (term_count_proper t doc doc' Hd),
    (document_frequency_proper t da db da' db' Ha Hb).
Qed.

Lemma binary64_similarity_permutation da db da' db' :
  da ≡ₚ da' -> db ≡ₚ db' ->
  Binary64.storage_order [da; db] = Binary64.storage_order [da'; db'] ->
  Binary64.similarity da db = Binary64.similarity da' db'.
Proof.
  intros Ha Hb Ho. unfold Binary64.similarity.
  now rewrite (binary64_tfidf_row_permutation da db da' db' da da' Ha Hb Ha Ho),
    (binary64_tfidf_row_permutation da db da' db' db db' Ha Hb Hb Ho).
Qed.
End Binary64Facts.

(** * The properties of the matcher *)

Section MatcherClaims.
Variable lower_ext : str -> str -> N -> list N.
Variable word_ext : N -> bool.
Variable stop_words : gset str.

Local Abbreviation analyze := (analyze lower_ext word_ext stop_words).
Local Abbreviation fit_transform := (fit_transform lower_ext word_ext stop_words).
Local Abbreviation calculate_skill_match :=
  (calculate_skill_match lower_ext word_ext stop_words).

(** C1: when the resume text or the job description is empty, the call
    returns the score 0.0 and no missing terms.  The vectoriser is not
    reached: on such a pair it could have raised. *)
Theorem empty_input_short_circuit :
  (forall job_description_text,
      calculate_skill_match [] job_description_text = Returns (0%R, [])) /\
  (forall resume_text,
      calculate_skill_match resume_text [] = Returns (0%R, [])) /\
  fit_transform [[]; []] = Raises ValueError_empty_vocabulary.
Proof.
  split; [| split].
  - apply calculate_skill_match_empty_l.
  - apply calculate_skill_match_empty_r.
  - reflexivity.
Qed.

(** C2: on two non-empty texts that leave no term after tokenising and
    removing the stop words, the call does not return the zero result: the
    vectoriser raises its [ValueError]. *)
Theorem degenerate_vocabulary_raises resume_text job_description_text :
  resume_text <> [] -> job_description_text <> [] ->
  analyze resume_text = [] -> analyze job_description_text = [] ->
  calculate_skill_match resume_text job_description_text
  = Raises ValueError_empty_vocabulary.
Proof.
  intros Hr Hj Har Haj. rewrite calculate_skill_match_nonempty by assumption.
  rewrite Har, Haj. reflexivity.
Qed.

(** C3, at a pair of repetitive texts made of one-letter stop words: the
    call yields no score, it raises. *)
Theorem repetitive_stop_words_no_score :
  score_of (calculate_skill_match (lit "a a a a") (lit "i i"))
  = Raises ValueError_empty_vocabulary.
Proof. vm_compute. reflexivity. Qed.

(** Whenever the call returns, the score is a percentage, in exact
    arithmetic; the call fails to return exactly on two non-empty texts
    without terms. *)
Lemma score_range_or_raise a b :
  (a <> [] /\ b <> [] /\ analyze a = [] /\ analyze b = [] /\
   score_of (calculate_skill_match a b) = Raises ValueError_empty_vocabulary)
  \/ (exists s, score_of (calculate_skill_match a b) = Returns s /\
                (0 <= s <= 100)%R).
Proof.
  destruct a as [|c a].
  { right. exists 0%R. split; [reflexivity | lra]. }
  destruct b as [|d b].
  { right. exists 0%R. split; [reflexivity | lra]. }
  rewrite calculate_skill_match_nonempty by done.
  destruct (vocabulary _) as [|t vocab] eqn:E.
  - left. pose proof (proj1 (vocabulary_nil _) E) as H.
    repeat split; try done; apply H; set_solver.
  - right. eexists. split; [reflexivity | apply similarity_range].
Qed.

(** C6, as amended: on two non-empty texts of which at least one keeps a
    term, the call returns, and the missing terms it returns are exactly
    the white-space tokens of the job description that are not
    white-space tokens of the resume, each once, in ascending order.  No
    stop word and no short token is left out. *)
Theorem missing_terms_set_difference resume_text job_description_text :
  resume_text <> [] -> job_description_text <> [] ->
  analyze resume_text <> [] \/ analyze job_description_text <> [] ->
  exists s m,
    calculate_skill_match resume_text job_description_text = Returns (s, m) /\
    StronglySorted str_le m /\ NoDup m /\
    forall w, w ∈ m <->
      w ∈ split job_description_text /\ w ∉ split resume_text.
Proof.
  intros Hr Hj Hv. rewrite calculate_skill_match_nonempty by assumption.
  destruct (vocabulary _) as [|t vocab] eqn:E.
  - pose proof (proj1 (vocabulary_nil _) E) as H.
    destruct Hv as [Hv|Hv]; exfalso; apply Hv, H; set_solver.
  - eexists _, _. split; [reflexivity |].
    split; [apply missing_terms_sorted |].
    split; [apply missing_terms_NoDup |].
    apply missing_terms_elem.
Qed.



End MatcherClaims.

Section TokenOrder.
Variable lower_ext : str -> str -> N -> list N.
Variable word_ext : N -> bool.
Variable stop_words : gset str.

Local Abbreviation analyze := (analyze lower_ext word_ext stop_words).
Local Abbreviation calculate_skill_match :=
  (calculate_skill_match lower_ext word_ext stop_words).

(** White space has no case. *)
Hypothesis lower_ext_space :
  forall before after c,
    (128 <= c)%N -> is_space c = true -> lower_ext before after c = [c].

(** What lies beyond the nearest white space, on either side, does not
    matter to the lower case of a code point. *)
Hypothesis lower_ext_before :
  forall far sp before after c,
    is_space sp = true ->
    lower_ext (far ++ sp :: before) after c = lower_ext before after c.
Hypothesis lower_ext_after :
  forall before after sp far c,
    is_space sp = true ->
    lower_ext before (after ++ sp :: far) c = lower_ext before after c.

(** White space is not a word character. *)
Hypothesis word_ext_space :
  forall c, (128 <= c)%N -> is_space c = true -> word_ext c = false.

(** C10, as amended: on non-empty texts, the order of the white-space
    tokens of either text does not matter to the score in exact
    arithmetic; and it does not matter to the score in binary64 when the
    terms of the two texts, read one text after the other, are first seen
    in the same order as before.  A reordering that changes the order in
    which the terms are first seen can change the last digit. *)
Theorem similarity_token_order a a' b b' :
  a <> [] -> a' <> [] -> b <> [] -> b' <> [] ->
  split a ≡ₚ split a' -> split b ≡ₚ split b' ->
  score_of (calculate_skill_match a b) = score_of (calculate_skill_match a' b')
  /\ (Binary64.storage_order [analyze a; analyze b]
      = Binary64.storage_order [analyze a'; analyze b'] ->
      Binary64.score_of
        (Binary64.calculate_skill_match lower_ext word_ext stop_words a b)
      = Binary64.score_of
          (Binary64.calculate_skill_match lower_ext word_ext stop_words a' b')).
Proof.
  intros Ha Ha' Hb Hb' Hpa Hpb.
  pose proof (analyze_permutation lower_ext word_ext stop_words
                lower_ext_space lower_ext_before lower_ext_after word_ext_space)
    as Hperm.
  pose proof (Hperm a a' Hpa) as Hqa. pose proof (Hperm b b' Hpb) as Hqb.
  split.
  - rewrite !calculate_skill_match_nonempty by assumption.
    rewrite (vocabulary_permutation _ _ _ _ Hqa Hqb).
    destruct (vocabulary _); [reflexivity |].
    unfold score_of. simpl.
    now rewrite (similarity_permutation _ _ _ _ Hqa Hqb).
  - intros Ho. rewrite !binary64_calculate_skill_match_nonempty by assumption.
    rewrite (vocabulary_permutation _ _ _ _ Hqa Hqb).
    destruct (vocabulary _); [reflexivity |].
    unfold Binary64.score_of. simpl.
    now rewrite (binary64_similarity_permutation _ _ _ _ Hqa Hqb Ho).
Qed.
End TokenOrder.

(** * The properties at concrete texts *)

(** Each property that has premises is applied once to concrete texts,
    with the tables of [Latin]. *)

Local Abbreviation latin_analyze :=
  (analyze Latin.lower_ext Latin.word_ext Latin.stop_words).
Local Abbreviation latin_calculate_skill_match :=
  (calculate_skill_match Latin.lower_ext Latin.word_ext Latin.stop_words).
Local Abbreviation latin_binary64_calculate_skill_match :=
  (Binary64.calculate_skill_match Latin.lower_ext Latin.word_ext
     Latin.stop_words).

Ltac by_evaluation := vm_compute; first [reflexivity | discriminate].

(** A text that [clean_text] leaves as it is, is normalised. *)
Lemma normalized_by_clean_text t :
  clean_text Latin.lower_ext t = t -> NormalizedText t.
Proof.
  intros <-. apply clean_text_normalized. exact latin_lower_ext_no_upper.
Qed.

(** C2 on two texts made of stop words: the call raises. *)
Lemma degenerate_vocabulary_raises_witness :
  lit "the and" <> [] /\ lit "of the" <> [] /\
  latin_analyze (lit "the and") = [] /\ latin_analyze (lit "of the") = [] /\
  latin_calculate_skill_match (lit "the and") (lit "of the")
  = Raises ValueError_empty_vocabulary.
Proof.
  do 4 (split; [by_evaluation |]).
  apply degenerate_vocabulary_raises; by_evaluation.
Defined.

(** C6, as it stands, fails on two normalised one-letter texts: the set
    difference is ["b"], but the call raises and returns no missing
    terms. *)
Lemma missing_terms_need_vocabulary :
  NormalizedText (lit "a") /\ NormalizedText (lit "b") /\
  missing_terms (lit "a") (lit "b") = [lit "b"] /\
  missing_of (latin_calculate_skill_match (lit "a") (lit "b"))
  = Raises ValueError_empty_vocabulary /\
  missing_of (latin_calculate_skill_match (lit "a") (lit "b"))
  <> Returns (missing_terms (lit "a") (lit "b")).
Proof.
  split; [now apply normalized_by_clean_text |].
  split; [now apply normalized_by_clean_text |].
  split; [by_evaluation |]. split; by_evaluation.
Qed.

(** C6, as amended, on an example of the design document. *)
Lemma missing_terms_set_difference_witness :
  lit "cat dog" <> [] /\ lit "dog bird fish" <> [] /\
  (latin_analyze (lit "cat dog") <> [] \/
   latin_analyze (lit "dog bird fish") <> []) /\
  exists s m,
    latin_calculate_skill_match (lit "cat dog") (lit "dog bird fish")
    = Returns (s, m) /\
    StronglySorted str_le m /\ NoDup m /\
    forall w, w ∈ m <->
      w ∈ split (lit "dog bird fish") /\ w ∉ split (lit "cat dog").
Proof.
  split; [by_evaluation |]. split; [by_evaluation |].
  split; [left; by_evaluation |].
  apply missing_terms_set_difference;
    [by_evaluation | by_evaluation | left; by_evaluation].
Defined.

(** The two examples of the design document for the missing terms. *)
Example missing_terms_alpha_beta :
  missing_terms (lit "alpha beta") (lit "alpha beta gamma") = [lit "gamma"].
Proof. by_evaluation. Qed.

Example missing_terms_cat_dog :
  missing_terms (lit "cat dog") (lit "dog bird fish")
  = [lit "bird"; lit "fish"].
Proof. by_evaluation. Qed.


(** C10 on a resume and a job description with their tokens reordered,
    the terms being first seen in the same order, java, python, sql. *)
Lemma similarity_token_order_witness :
  (forall before after c,
      (128 <= c)%N -> is_space c = true ->
      Latin.lower_ext before after c = [c]) /\
  (forall far sp before after c,
      is_space sp = true ->
      Latin.lower_ext (far ++ sp :: before) after c
      = Latin.lower_ext before after c) /\
  (forall before after sp far c,
      is_space sp = true ->
      Latin.lower_ext before (after ++ sp :: far) c
      = Latin.lower_ext before after c) /\
  (forall c, (128 <= c)%N -> is_space c = true -> Latin.word_ext c = false) /\
  lit "java python java" <> [] /\ lit "java  java python" <> [] /\
  lit "sql in python" <> [] /\ lit "in sql python" <> [] /\
  split (lit "java python java") ≡ₚ split (lit "java  java python") /\
  split (lit "sql in python") ≡ₚ split (lit "in sql python") /\
  Binary64.storage_order [latin_analyze (lit "java python java");
                          latin_analyze (lit "sql in python")]
  = Binary64.storage_order [latin_analyze (lit "java  java python");
                            latin_analyze (lit "in sql python")] /\
  score_of (latin_calculate_skill_match (lit "java python java")
              (lit "sql in python"))
  = score_of (latin_calculate_skill_match (lit "java  java python")
                (lit "in sql python")) /\
  Binary64.score_of
    (latin_binary64_calculate_skill_match (lit "java python java")
       (lit "sql in python"))
  = Binary64.score_of
      (latin_binary64_calculate_skill_match (lit "java  java python")
         (lit "in sql python")).
Proof.
  assert (Hp1 : split (lit "java python java")
                ≡ₚ split (lit "java  java python")).
  { vm_compute. apply perm_skip, perm_swap. }
  assert (Hp2 : split (lit "sql in python") ≡ₚ split (lit "in sql python")).
  { vm_compute. apply perm_swap. }
  assert (Ho : Binary64.storage_order [latin_analyze (lit "java python java");
                                       latin_analyze (lit "sql in python")]
               = Binary64.storage_order
                   [latin_analyze (lit "java  java python");
                    latin_analyze (lit "in sql python")])
    by by_evaluation.
  assert (Hn1 : lit "java python java" <> []) by by_evaluation.
  assert (Hn2 : lit "java  java python" <> []) by by_evaluation.
  assert (Hn3 : lit "sql in python" <> []) by by_evaluation.
  assert (Hn4 : lit "in sql python" <> []) by by_evaluation.
  split; [exact latin_lower_ext_space |].
  split; [exact latin_lower_ext_before |].
  split; [exact latin_lower_ext_after |].
  split; [exact latin_word_ext_space |].
  do 4 (split; [assumption |]).
  split; [exact Hp1 |]. split; [exact Hp2 |]. split; [exact Ho |].
  destruct (similarity_token_order Latin.lower_ext Latin.word_ext
              Latin.stop_words latin_lower_ext_space latin_lower_ext_before
              latin_lower_ext_after latin_word_ext_space
              (lit "java python java") (lit "java  java python")
              (lit "sql in python") (lit "in sql python")
              Hn1 Hn2 Hn3 Hn4 Hp1 Hp2)
    as [Hexact Hbinary].
  split; [exact Hexact | exact (Hbinary Ho)].
Defined.


(** C10, as it stands, fails in binary64: "sql dog cat" has the tokens of
    "cat dog sql" in another order, and against "cat" the two texts score
    44.943641652398213 and 44.943641652398206. *)
Lemma token_order_changes_binary64_score :
  lit "cat dog sql" <> [] /\ lit "sql dog cat" <> [] /\ lit "cat" <> [] /\
  split (lit "cat dog sql") ≡ₚ split (lit "sql dog cat") /\
  Binary64.score_of
    (latin_binary64_calculate_skill_match (lit "cat dog sql") (lit "cat"))
  = Returns 0x1.678c93fea18cbp+5%float /\
  Binary64.score_of
    (latin_binary64_calculate_skill_match (lit "sql dog cat") (lit "cat"))
  = Returns 0x1.678c93fea18ccp+5%float /\
  Binary64.score_of
    (latin_binary64_calculate_skill_match (lit "cat dog sql") (lit "cat"))
  <> Binary64.score_of
       (latin_binary64_calculate_skill_match (lit "sql dog cat") (lit "cat")).
Proof.
  assert (E1 : Binary64.score_of
                 (latin_binary64_calculate_skill_match (lit "cat dog sql")
                    (lit "cat"))
               = Returns 0x1.678c93fea18cbp+5%float) by by_evaluation.
  assert (E2 : Binary64.score_of
                 (latin_binary64_calculate_skill_match (lit "sql dog cat")
                    (lit "cat"))
               = Returns 0x1.678c93fea18ccp+5%float) by by_evaluation.
  do 3 (split; [by_evaluation |]).
  split; [exact (Permutation_rev (split (lit "cat dog sql"))) |].
  split; [exact E1 |]. split; [exact E2 |].
  rewrite E1, E2. intros H.
  assert (F : match @Returns float 0x1.678c93fea18ccp+5%float with
              | Returns x => (0x1.678c93fea18cbp+5 <? x)%float
              | Raises _ => false
              end = true) by reflexivity.
  rewrite <- H in F. vm_compute in F. discriminate F.
Qed.

(** Identical texts of two terms: 100 in exact arithmetic,
    100.00000000000003 in binary64. *)
Example identical_texts_binary64 :
  Binary64.score_of
    (latin_binary64_calculate_skill_match (lit "python developer")
       (lit "python developer"))
  = Returns 0x1.9000000000002p+6%float.
Proof. by_evaluation. Qed.

(** * The definitions at work *)

Example clean_text_kelvin :
  clean_text Latin.lower_ext [0x212A; 0x130; 0x41]%N = lit "ki a".
Proof. by_evaluation. Qed.

Example strip_example :
  strip (9 :: lit " Senior  Dev " ++ [10])%N = lit "Senior  Dev".
Proof. by_evaluation. Qed.

Example split_example :
  split (lit "  cat " ++ 9%N :: lit " dog" ++ [10%N]) = [lit "cat"; lit "dog"].
Proof. by_evaluation. Qed.

Example sorted_example :
  sorted (lit <$> ["dog"; "bird"; "fish"; "b"; "Zed"; "bi"]%string)
  = lit <$> ["Zed"; "b"; "bi"; "bird"; "dog"; "fish"]%string.
Proof. by_evaluation. Qed.

Example analyze_example :
  latin_analyze (lit "The cat and a dog-house of x_1 C3")
  = lit <$> ["cat"; "dog"; "house"; "x_1"; "c3"]%string.
Proof. by_evaluation. Qed.

(** A resume and a job description of the design document: the call
    returns a percentage and the two missing terms. *)
Example calculate_skill_match_cat_dog :
  exists s,
    latin_calculate_skill_match (lit "cat dog") (lit "dog bird fish")
    = Returns (s, [lit "bird"; lit "fish"]) /\ (0 <= s <= 100)%R.
Proof.
  rewrite calculate_skill_match_nonempty by by_evaluation.
  assert (E : vocabulary [latin_analyze (lit "cat dog");
                          latin_analyze (lit "dog bird fish")]
              = lit <$> ["bird"; "cat"; "dog"; "fish"]%string)
    by by_evaluation.
  rewrite E. simpl. eexists. split; [| apply similarity_range].
  now rewrite missing_terms_cat_dog.
Qed.

(** * The words of a cleaned text *)

Section CleanedWords.
Variable lower_ext : str -> str -> N -> list N.

Local Abbreviation not_space := (fun c : N => negb (is_space c)).

Lemma is_ascii_letter_not_space c :
  is_ascii_letter c = true -> is_space c = false.
Proof.
  unfold is_ascii_letter. intros [H|H]%orb_true_iff.
  - now apply is_az_not_space.
  - apply is_upper_spec in H. apply not_true_is_false.
    intros G%is_space_spec. lia.
Qed.

Lemma runs_from_sub_non_letters cur s :
  runs_from not_space cur (sub_non_letters s)
  = runs_from is_ascii_letter cur s.
Proof.
  revert cur. induction s as [|a s IH]; intros cur; [reflexivity |].
  unfold sub_non_letters in *. rewrite fmap_cons. simpl.
  destruct (is_ascii_letter a) eqn:E.
  - rewrite (is_ascii_letter_not_space a E). simpl. apply IH.
  - simpl. now rewrite IH.
Qed.

Lemma runs_from_sub_space_runs b cur s :
  (b = true -> cur = []) ->
  runs_from not_space cur (sub_space_runs_from b s)
  = runs_from not_space cur s.
Proof.
  revert b cur. induction s as [|a s IH]; intros b cur Hb; [reflexivity |].
  simpl. destruct (is_space a) eqn:E; simpl.
  - destruct b.
    + rewrite (Hb eq_refl). simpl. now apply IH.
    + simpl. f_equal. now apply IH.
  - rewrite E. simpl. apply IH. discriminate.
Qed.

Lemma runs_lstrip s : runs not_space (lstrip s) = runs not_space s.
Proof.
  unfold runs. induction s as [|a s IH]; [reflexivity |]. simpl.
  destruct (is_space a) eqn:E; simpl; [exact IH | now rewrite E].
Qed.

Lemma runs_from_rstrip cur s :
  runs_from not_space cur (rstrip s) = runs_from not_space cur s.
Proof.
  revert cur. induction s as [|a s IH]; intros cur; [reflexivity |].
  rewrite rstrip_cons. destruct (rstrip s) as [|b r] eqn:E.
  - simpl. destruct (is_space a) eqn:Ea; simpl.
    + rewrite <- IH. simpl. now rewrite app_nil_r.
    + rewrite Ea. simpl. now rewrite <- IH.
  - simpl. destruct (is_space a); simpl; now rewrite <- IH.
Qed.

(** The tokens of a cleaned text are the runs of ASCII letters of the
    lower-cased text. *)
Lemma split_clean_text s :
  split (clean_text lower_ext s) = runs is_ascii_letter (str_lower lower_ext s).
Proof.
  unfold split, clean_text, strip, sub_space_runs, runs.
  rewrite runs_from_rstrip.
  change (runs_from not_space [] (lstrip ?u)) with (runs not_space (lstrip u)).
  rewrite runs_lstrip. unfold runs.
  rewrite runs_from_sub_space_runs by discriminate.
  apply runs_from_sub_non_letters.
Qed.

Lemma emit_nonempty cur : cur <> [] -> emit cur = [cur].
Proof. now destruct cur. Qed.

Lemma runs_from_nonempty p cur s : cur <> [] -> runs_from p cur s <> [].
Proof.
  revert cur. induction s as [|a s IH]; intros cur Hc; simpl.
  - now rewrite emit_nonempty.
  - destruct (p a).
    + apply IH. now destruct cur.
    + now rewrite emit_nonempty.
Qed.

Lemma runs_from_cons p cur a s :
  runs_from p cur (a :: s)
  = if p a then runs_from p (cur ++ [a]) s else emit cur ++ runs_from p [] s.
Proof. reflexivity. Qed.

Lemma str_join_cons sep p rest :
  rest <> [] -> str_join sep (p :: rest) = p ++ sep ++ str_join sep rest.
Proof. now destruct rest. Qed.

(** A text whose white space is single spaces between its tokens is its
    tokens joined by spaces. *)
Lemma join_runs_from cur t :
  ws_separated t ->
  (forall c, c ∈ t -> is_space c = true -> c = space) ->
  (forall c, last t = Some c -> is_space c = false) ->
  (cur = [] -> forall c, head t = Some c -> is_space c = false) ->
  str_join [space] (runs_from not_space cur t) = cur ++ t.
Proof.
  revert cur. induction t as [|a t IH]; intros cur Hsep Hsp Hlast Hhead.
  - simpl. rewrite app_nil_r. now destruct cur.
  - apply ws_separated_cons in Hsep as [Ha Hsep].
    assert (Hsp' : forall c, c ∈ t -> is_space c = true -> c = space).
    { intros c Hc. apply Hsp. now apply list_elem_of_further. }
    rewrite runs_from_cons. destruct (is_space a) eqn:E; simpl negb; cbv iota.
    + pose proof (Hsp a (list_elem_of_here _ _) E) as ->.
      assert (Hcur : cur <> []).
      { intros ->. specialize (Hhead eq_refl space eq_refl). congruence. }
      destruct t as [|b t].
      { specialize (Hlast space eq_refl). congruence. }
      specialize (Ha b eq_refl E).
      rewrite emit_nonempty by assumption.
      change ([cur] ++ ?l) with (cur :: l).
      rewrite str_join_cons.
      2:{ rewrite runs_from_cons, Ha. simpl negb. cbv iota.
          now apply runs_from_nonempty. }
      rewrite (IH [] Hsep Hsp').
      * reflexivity.
      * intros c Hc. apply Hlast. now rewrite last_cons_cons.
      * intros _ c [= <-]. exact Ha.
    + rewrite (IH (cur ++ [a]) Hsep Hsp').
      * now rewrite <- app_assoc.
      * intros c Hc. apply Hlast. destruct t; [discriminate |].
        now rewrite last_cons_cons.
      * intros Hnil. now destruct cur.
Qed.

Lemma clean_text_space_only s c :
  c ∈ clean_text lower_ext s -> is_space c = true -> c = space.
Proof.
  unfold clean_text, strip, sub_space_runs.
  intros Hc%rstrip_elem%lstrip_elem%sub_space_runs_from_elem Hs.
  destruct Hc as [Hc|]; [| assumption].
  apply sub_non_letters_elem in Hc as [[Hl _]|]; [| assumption].
  apply is_ascii_letter_not_space in Hl. congruence.
Qed.

(** A cleaned text is its tokens joined by single spaces. *)
Lemma clean_text_join_split s :
  clean_text lower_ext s = str_join [space] (split (clean_text lower_ext s)).
Proof.
  symmetry. unfold split, runs.
  rewrite (join_runs_from [] (clean_text lower_ext s)); [reflexivity | | | |].
  - unfold clean_text, strip, sub_space_runs.
    apply rstrip_separated, lstrip_separated, sub_space_runs_from_separated.
  - apply clean_text_space_only.
  - unfold clean_text, strip. intros c. apply rstrip_last.
  - unfold clean_text, strip. intros _ c Hc%rstrip_head. revert Hc.
    apply lstrip_head.
Qed.
End CleanedWords.

(** * Texts without a common term *)

Section CommonTerms.
Local Open Scope R_scope.

Lemma dot_scaled k m x y :
  dot ((fun a => a * k) <$> x) ((fun b => b * m) <$> y) = k * m * dot x y.
Proof.
  revert y. induction x as [|a x IH]; intros [|b y];
    rewrite ?fmap_nil, ?fmap_cons, ?dot_nil_l, ?dot_nil_r; try lra.
  rewrite !dot_cons, IH. lra.
Qed.

(** Normalising a row multiplies it by a positive number. *)
Lemma l2_normalize_scaled x :
  exists k, 0 < k /\ l2_normalize x = (fun a => a * k) <$> x.
Proof.
  unfold l2_normalize. destruct (Req_dec_T (sqrt (dot x x)) 0) as [_|E].
  - exists 1. split; [lra |]. rewrite <- (list_fmap_id x) at 1.
    apply list_fmap_ext. intros _ a _. simpl. lra.
  - assert (Hs : 0 < sqrt (dot x x)).
    { pose proof (sqrt_pos (dot x x)). lra. }
    exists (/ sqrt (dot x x)). split; [now apply Rinv_0_lt_compat |].
    reflexivity.
Qed.

Lemma cosine_scaled x y : exists k, 0 < k /\ cosine x y = k * dot x y.
Proof.
  unfold cosine.
  destruct (l2_normalize_scaled x) as (k & Hk & ->).
  destruct (l2_normalize_scaled y) as (m & Hm & ->).
  exists (k * m). split; [now apply Rmult_lt_0_compat |]. apply dot_scaled.
Qed.

Lemma dot_fmap_zero {A} (f g : A -> R) (l : list A) :
  (forall t, t ∈ l -> 0 <= f t) -> (forall t, t ∈ l -> 0 <= g t) ->
  dot (f <$> l) (g <$> l) = 0 <-> forall t, t ∈ l -> f t * g t = 0.
Proof.
  induction l as [|a l IH]; intros Hf Hg.
  - split; [intros _ t Ht; now apply elem_of_nil in Ht | reflexivity].
  - rewrite !fmap_cons, dot_cons.
    assert (Hf' : forall t, t ∈ l -> 0 <= f t)
      by (intros t Ht; apply Hf; now apply list_elem_of_further).
    assert (Hg' : forall t, t ∈ l -> 0 <= g t)
      by (intros t Ht; apply Hg; now apply list_elem_of_further).
    specialize (IH Hf' Hg').
    pose proof (Hf a (list_elem_of_here _ _)) as Hfa.
    pose proof (Hg a (list_elem_of_here _ _)) as Hga.
    assert (Hd : 0 <= dot (f <$> l) (g <$> l)).
    { apply dot_nonneg; apply Forall_fmap, Forall_forall; intros t Ht; simpl; auto. }
    assert (Hp : 0 <= f a * g a) by now apply Rmult_le_pos.
    split.
    + intros H t [->|Ht]%elem_of_cons; [lra |]. apply IH; [lra | exact Ht].
    + intros H. rewrite (H a (list_elem_of_here _ _)).
      rewrite (proj2 IH); [lra |].
      intros t Ht. apply H. now apply list_elem_of_further.
Qed.

Lemma term_count_zero t doc : term_count t doc = 0%nat <-> t ∉ doc.
Proof.
  unfold term_count. split.
  - intros H Ht.
    assert (Hf : t ∈ filter (fun w => w = t) doc) by now apply list_elem_of_filter.
    destruct (filter _ doc); [now apply elem_of_nil in Hf | discriminate].
  - intros Ht. destruct (filter (fun w => w = t) doc) as [|w l] eqn:E;
      [reflexivity |].
    assert (Hw : w ∈ filter (fun w => w = t) doc) by (rewrite E; left).
    apply list_elem_of_filter in Hw as [-> Hw]. contradiction.
Qed.

Lemma tfidf_entry_zero docs doc t :
  INR (term_count t doc) * idf docs t = 0 <-> t ∉ doc.
Proof.
  pose proof (idf_ge_1 docs t) as Hi. rewrite <- term_count_zero. split.
  - intros H. apply Rmult_integral in H as [H|H]; [| lra].
    now apply INR_eq.
  - intros ->. simpl. lra.
Qed.

(** The similarity is zero exactly when the two documents have no term in
    common. *)
Lemma similarity_zero da db :
  similarity da db = 0 <-> forall t, t ∈ da -> t ∉ db.
Proof.
  unfold similarity, weights.
  set (docs := [da; db]). set (v := vocabulary docs).
  destruct (cosine_scaled (l2_normalize (tfidf_row docs v da))
              (l2_normalize (tfidf_row docs v db))) as (k & Hk & ->).
  destruct (l2_normalize_scaled (tfidf_row docs v da)) as (k1 & Hk1 & ->).
  destruct (l2_normalize_scaled (tfidf_row docs v db)) as (k2 & Hk2 & ->).
  rewrite dot_scaled.
  assert (Hdot : dot (tfidf_row docs v da) (tfidf_row docs v db) = 0
                 <-> forall t, t ∈ v ->
                       (INR (term_count t da) * idf docs t)
                       * (INR (term_count t db) * idf docs t) = 0).
  { unfold tfidf_row. apply dot_fmap_zero; intros t _;
      pose proof (idf_ge_1 docs t); pose proof (pos_INR (term_count t da));
      pose proof (pos_INR (term_count t db)); apply Rmult_le_pos; lra. }
  assert (Hkk : 0 < k * (k1 * k2)).
  { apply Rmult_lt_0_compat; [exact Hk | now apply Rmult_lt_0_compat]. }
  split.
  - intros H t Hta Htb.
    assert (H0 : dot (tfidf_row docs v da) (tfidf_row docs v db) = 0).
    { set (d := dot _ _) in *. nra. }
    assert (Hv : t ∈ v).
    { apply vocabulary_elem. exists da. split; [left | exact Hta]. }
    pose proof (proj1 Hdot H0 t Hv) as Hz.
    apply Rmult_integral in Hz as [Hz|Hz].
    + now apply (tfidf_entry_zero docs da t) in Hz.
    + now apply (tfidf_entry_zero docs db t) in Hz.
  - intros H. rewrite (proj2 Hdot); [lra |]. intros t _.
    destruct (decide (t ∈ da)) as [Hta|Hta].
    + rewrite (proj2 (tfidf_entry_zero docs db t) (H t Hta)). lra.
    + rewrite (proj2 (tfidf_entry_zero docs da t) Hta). lra.
Qed.
End CommonTerms.

(** * The paragraphs of a document *)

Section Paragraphs.
Variable lower_ext : str -> str -> N -> list N.

(** What lies beyond the nearest white space, on either side, does not
    matter to the lower case of a code point. *)
Hypothesis lower_ext_before :
  forall far sp before after c,
    is_space sp = true ->
    lower_ext (far ++ sp :: before) after c = lower_ext before after c.
Hypothesis lower_ext_after :
  forall before after sp far c,
    is_space sp = true ->
    lower_ext before (after ++ sp :: far) c = lower_ext before after c.

Local Abbreviation newline := (0x0A%N).

Lemma str_lower_from_newline before x y :
  str_lower_from lower_ext before (x ++ newline :: y)
  = str_lower_from lower_ext before x ++ newline :: str_lower lower_ext y.
Proof.
  revert before. induction x as [|c x IH]; intros before; simpl.
  - f_equal.
    apply (str_lower_from_before lower_ext lower_ext_before before newline [] y).
    reflexivity.
  - rewrite (lower_char_after lower_ext lower_ext_after) by reflexivity.
    rewrite IH. now rewrite <- app_assoc.
Qed.

Lemma letter_runs_joined_lines parts :
  runs is_ascii_letter (str_lower lower_ext (str_join [newline] parts))
  = flat_map (fun p => runs is_ascii_letter (str_lower lower_ext p)) parts.
Proof.
  induction parts as [|p rest IH]; [reflexivity |].
  destruct rest as [|q rest].
  - simpl. now rewrite app_nil_r.
  - rewrite str_join_cons by discriminate.
    change (p ++ [newline] ++ ?l) with (p ++ newline :: l).
    unfold str_lower at 1. rewrite str_lower_from_newline.
    unfold runs at 1. rewrite runs_from_app_sep by reflexivity.
    change (flat_map ?f (p :: ?l)) with (f p ++ flat_map f l).
    simpl. f_equal. exact IH.
Qed.
End Paragraphs.

(** * More on the matcher *)

Section MatcherExtras.
Variable lower_ext : str -> str -> N -> list N.
Variable word_ext : N -> bool.
Variable stop_words : gset str.

Local Abbreviation analyze := (analyze lower_ext word_ext stop_words).
Local Abbreviation calculate_skill_match :=
  (calculate_skill_match lower_ext word_ext stop_words).

(** What a call on two non-empty texts returns, when it returns. *)
Lemma calculate_skill_match_returns a b s m :
  a <> [] -> b <> [] ->
  calculate_skill_match a b = Returns (s, m) ->
  s = similarity (analyze a) (analyze b) /\ m = missing_terms a b.
Proof.
  intros Ha Hb. rewrite calculate_skill_match_nonempty by assumption.
  destruct (vocabulary _); [discriminate |]. now intros [= <- <-].
Qed.

(** X3: on two non-empty texts for which the call returns, the score is
    zero exactly when no term of the resume is a term of the job
    description. *)
Theorem score_zero_iff_no_common_term a b s m :
  a <> [] -> b <> [] ->
  calculate_skill_match a b = Returns (s, m) ->
  s = 0%R <-> forall t, t ∈ analyze a -> t ∉ analyze b.
Proof.
  intros Ha Hb [-> _]%calculate_skill_match_returns; try assumption.
  apply similarity_zero.
Qed.

End MatcherExtras.

(** * What the button shows *)

Ltac not_shown H :=
  repeat (apply elem_of_cons in H as [H|H]; [discriminate H |]);
  now apply elem_of_nil in H.

Section ShownFacts.

Lemma results_shown_list result l :
  MissingList l ∈ results_shown result -> l = result.2 /\ l <> [].
Proof.
  unfold results_shown. destruct result as [x [|w m]]; simpl; intros H.
  - not_shown H.
  - do 5 (apply elem_of_cons in H as [H|H]; [discriminate |]).
    apply elem_of_cons in H as [H|H]; [| not_shown H].
    injection H as ->. split; [reflexivity | discriminate].
Qed.

Lemma results_shown_success result :
  SuccessNoMissing ∈ results_shown result <-> result.2 = [].
Proof.
  unfold results_shown. destruct result as [x [|w m]]; simpl; split.
  - reflexivity.
  - intros _. do 4 right. left.
  - intros H. not_shown H.
  - discriminate.
Qed.

(** The tokens of a run have the class of the run. *)
Lemma runs_from_class p cur s w c :
  (forall d, d ∈ cur -> p d = true) ->
  w ∈ runs_from p cur s -> c ∈ w -> p c = true /\ c ∈ cur ++ s.
Proof.
  revert cur. induction s as [|a s IH]; intros cur Hcur; simpl.
  - destruct cur as [|d cur]; simpl; [intros H; now apply elem_of_nil in H |].
    intros ->%list_elem_of_singleton Hc. rewrite app_nil_r. auto.
  - destruct (p a) eqn:Ha.
    + intros Hw Hc. rewrite (cons_middle a cur s), app_assoc.
      apply (IH (cur ++ [a])); auto.
      intros d [Hd| ->%list_elem_of_singleton]%elem_of_app; auto.
    + intros [Hw|Hw]%elem_of_app Hc.
      * destruct cur as [|d cur]; simpl in Hw; [now apply elem_of_nil in Hw |].
        apply list_elem_of_singleton in Hw as ->. split; [auto |].
        apply elem_of_app. now left.
      * destruct (IH [] (fun d Hd => False_ind _ (proj1 (elem_of_nil d) Hd))
                    Hw Hc) as [Hp Hin].
        split; [exact Hp |]. apply elem_of_app. right. now right.
Qed.

Lemma missing_terms_nil_iff a b :
  missing_terms a b = [] <-> forall w, w ∈ split b -> w ∈ split a.
Proof.
  split.
  - intros H w Hw. destruct (decide (w ∈ split a)) as [|Hn]; [assumption |].
    exfalso. apply (not_elem_of_nil w). rewrite <- H.
    now apply missing_terms_elem.
  - intros H. apply elem_of_nil_inv. intros w [Hb Ha]%missing_terms_elem.
    now apply Ha, H.
Qed.

End ShownFacts.

(** * The button *)

Section ButtonFacts.
Variable lower_ext : str -> str -> N -> list N.
Variable word_ext : N -> bool.
Variable stop_words : gset str.

Local Abbreviation clean := (clean_text lower_ext).
Local Abbreviation matcher := (calculate_skill_match lower_ext word_ext stop_words).
Local Abbreviation button := (analyze_match lower_ext word_ext stop_words).

Lemma analyze_match_nonempty r j :
  r <> [] -> j <> [] ->
  button r j = results_shown <$> matcher (clean r) (clean j).
Proof.
  intros Hr Hj. destruct r as [|c r]; [done |]. destruct j as [|d j]; [done |].
  unfold analyze_match. destruct (matcher _ _); reflexivity.
Qed.

Lemma analyze_match_empty r j :
  r = [] \/ j = [] -> button r j = Returns [WarningUploadBoth].
Proof. intros [-> | ->]; [reflexivity | now destruct r]. Qed.

Lemma matcher_raises_iff a b e :
  matcher a b = Raises e <->
  e = ValueError_empty_vocabulary /\ a <> [] /\ b <> [] /\
  analyze lower_ext word_ext stop_words a = [] /\
  analyze lower_ext word_ext stop_words b = [].
Proof.
  destruct a as [|c a].
  { rewrite calculate_skill_match_empty_l. split; [discriminate | tauto]. }
  destruct b as [|d b].
  { rewrite calculate_skill_match_empty_r. split; [discriminate | tauto]. }
  rewrite calculate_skill_match_nonempty by done.
  destruct (vocabulary _) as [|t v] eqn:E.
  - pose proof (proj1 (vocabulary_nil _) E) as H. split.
    + intros [= <-]. repeat split; try done; apply H; set_solver.
    + now intros [-> _].
  - split; [discriminate |]. intros (_ & _ & _ & Ha & Hb).
    rewrite Ha, Hb in E. discriminate.
Qed.

(** A normalised text has no term when each of its tokens is one letter
    long or a stop word. *)
Lemma analyze_nil_iff x :
  NormalizedText x ->
  analyze lower_ext word_ext stop_words x = [] <->
  forall w, w ∈ split x -> (length w < 2)%nat \/ w ∈ stop_words.
Proof.
  intros Hx. rewrite (analyze_normalized _ _ _ x Hx). split.
  - intros H w Hw. destruct (decide (2 <= length w)%nat) as [Hl|Hl]; [| lia].
    destruct (decide (w ∈ stop_words)) as [Hs|Hs]; [now right |].
    exfalso. apply (not_elem_of_nil w). rewrite <- H.
    apply list_elem_of_filter. split; [exact Hs |].
    apply list_elem_of_filter. now split.
  - intros H. apply elem_of_nil_inv. intros w [Hs [Hl Hw]%list_elem_of_filter]%list_elem_of_filter.
    destruct (H w Hw); [lia | contradiction].
Qed.

(** X7: a non-empty upload without any letter gives the score 0 and the
    message that nothing is missing, whatever the other text is. *)
Theorem button_text_without_letters r j :
  r <> [] -> j <> [] ->
  (forall before after c d,
      c ∈ r -> d ∈ lower_char lower_ext before after c ->
      is_ascii_letter d = false)
  \/ (forall before after c d,
         c ∈ j -> d ∈ lower_char lower_ext before after c ->
         is_ascii_letter d = false) ->
  button r j = Returns [ResultsSubheader; Score 0%R; Divider; MissingSubheader;
                        SuccessNoMissing; InfoCovered].
Proof.
  intros Hr Hj H. rewrite analyze_match_nonempty by assumption.
  destruct H as [H|H]; rewrite (clean_text_no_letters lower_ext _ H).
  - now rewrite calculate_skill_match_empty_l.
  - now rewrite calculate_skill_match_empty_r.
Qed.

(** X8: when both cleaned texts are non-empty and the button returns, the
    message that nothing is missing is shown exactly when every word of
    the cleaned job description is a word of the cleaned resume. *)
Theorem button_success_iff r j shown :
  clean r <> [] -> clean j <> [] ->
  button r j = Returns shown ->
  SuccessNoMissing ∈ shown <->
  forall w, w ∈ split (clean j) -> w ∈ split (clean r).
Proof.
  intros Hr Hj.
  assert (Hr' : r <> []) by (intros ->; now apply Hr).
  assert (Hj' : j <> []) by (intros ->; now apply Hj).
  rewrite analyze_match_nonempty by assumption.
  rewrite calculate_skill_match_nonempty by assumption.
  destruct (vocabulary _); [discriminate |]. intros [= <-].
  rewrite results_shown_success. apply missing_terms_nil_iff.
Qed.

(** Lower-casing never produces an ASCII capital. *)
Hypothesis lower_ext_no_upper :
  forall before after c d,
    (128 <= c)%N -> d ∈ lower_ext before after c -> is_upper d = false.

(** X10: pressing the button ends in an exception exactly when both cleaned
    texts are non-empty and each of their words is one letter long or a
    stop word; the exception is the [ValueError] of the vectoriser. *)
Theorem button_raises_iff r j e :
  button r j = Raises e <->
  e = ValueError_empty_vocabulary /\ clean r <> [] /\ clean j <> [] /\
  forall w, w ∈ split (clean r) \/ w ∈ split (clean j) ->
            (length w < 2)%nat \/ w ∈ stop_words.
Proof.
  pose proof (clean_text_normalized lower_ext lower_ext_no_upper) as Hn.
  assert (Hcases :
    (forall w, w ∈ split (clean r) \/ w ∈ split (clean j) ->
               (length w < 2)%nat \/ w ∈ stop_words)
    <-> analyze lower_ext word_ext stop_words (clean r) = []
        /\ analyze lower_ext word_ext stop_words (clean j) = []).
  { rewrite (analyze_nil_iff _ (Hn r)), (analyze_nil_iff _ (Hn j)).
    split; [intros H; split; intros w Hw; apply H; auto |].
    intros [H1 H2] w [Hw|Hw]; auto. }
  rewrite Hcases. clear Hcases.
  destruct (decide (r = [])) as [-> | Hr].
  { rewrite analyze_match_empty by now left.
    split; [discriminate | intros (_ & H & _); now destruct H]. }
  destruct (decide (j = [])) as [-> | Hj].
  { rewrite analyze_match_empty by now right.
    split; [discriminate | intros (_ & _ & H & _); now destruct H]. }
  rewrite analyze_match_nonempty by assumption.
  rewrite <- matcher_raises_iff.
  destruct (matcher (clean r) (clean j)); simpl; split; congruence.
Qed.

(** X9: the keywords that the button lists are the words of the cleaned job
    description that are not words of the cleaned resume, in ascending
    order and each once; there is at least one, and each is made of the
    letters a to z. *)
Theorem button_listed_keywords r j shown l :
  button r j = Returns shown -> MissingList l ∈ shown ->
  l <> [] /\ StronglySorted str_le l /\ NoDup l /\
  (forall w, w ∈ l <-> w ∈ split (clean j) /\ w ∉ split (clean r)) /\
  (forall w c, w ∈ l -> c ∈ w -> is_az c = true).
Proof.
  intros Hb Hl.
  destruct (decide (r = [])) as [-> | Hr].
  { rewrite analyze_match_empty in Hb by now left.
    injection Hb as <-. not_shown Hl. }
  destruct (decide (j = [])) as [-> | Hj].
  { rewrite analyze_match_empty in Hb by now right.
    injection Hb as <-. not_shown Hl. }
  rewrite analyze_match_nonempty in Hb by assumption.
  destruct (matcher (clean r) (clean j)) as [[s m]|] eqn:E; [| discriminate].
  injection Hb as <-. apply results_shown_list in Hl as [-> Hne]. simpl in *.
  assert (Hm : m = missing_terms (clean r) (clean j)).
  { destruct (decide (clean r = [])) as [Hc|Hc].
    { rewrite Hc, calculate_skill_match_empty_l in E. now injection E as _ <-. }
    destruct (decide (clean j = [])) as [Hd|Hd].
    { rewrite Hd, calculate_skill_match_empty_r in E. now injection E as _ <-. }
    rewrite calculate_skill_match_nonempty in E by assumption.
    destruct (vocabulary _); [discriminate |]. now injection E. }
  subst m. split; [exact Hne |].
  split; [apply missing_terms_sorted |].
  split; [apply missing_terms_NoDup |].
  split; [apply missing_terms_elem |].
  intros w c [Hw _]%missing_terms_elem Hc.
  destruct (runs_from_class _ [] _ w c
              (fun d Hd => False_ind _ (proj1 (elem_of_nil d) Hd)) Hw Hc)
    as [Hsp Hin].
  destruct (normalized_chars _ (clean_text_normalized lower_ext
              lower_ext_no_upper j) c Hin) as [Haz| ->]; [exact Haz |].
  discriminate.
Qed.
End ButtonFacts.

(** * The uploads and the page *)

Section PageFacts.
Variable lower_ext : str -> str -> N -> list N.
Variable word_ext : N -> bool.
Variable stop_words : gset str.
Variable File : Type.
Variable file_type : File -> str.
Variable extract_text : File -> option str.
Variable Document : File -> option DocxDocument.

Local Abbreviation load := (load_raw_text File file_type extract_text Document).
Local Abbreviation the_page :=
  (page lower_ext word_ext stop_words File file_type extract_text Document).

(** Loading a file shows a spinner and, at most, an error. *)
Lemma load_raw_text_shown r file raw shown x :
  load r file = Some (raw, shown) -> x ∈ shown ->
  x = Spinner r \/ x = ErrorUnsupported r.
Proof.
  unfold load_raw_text, extract_text_from_pdf, extract_text_from_docx.
  destruct file as [f|].
  - case_bool_decide; [| case_bool_decide].
    + destruct (extract_text f); [| discriminate].
      intros [= _ <-] ->%list_elem_of_singleton. now left.
    + destruct (Document f); [| discriminate].
      intros [= _ <-] ->%list_elem_of_singleton. now left.
    + intros [= _ <-] [->|[->|H1]%elem_of_cons]%elem_of_cons; auto.
      now apply elem_of_nil in H1.
  - intros [= _ <-] H. now apply elem_of_nil in H.
Qed.

(** X11: when no text comes from one of the two uploads (no file, a file
    of another type than PDF and DOCX, or a file with no text in it), the
    run does not reach the matcher: it shows no score, it cannot end in an
    exception of the matcher, and a press on the button shows the request
    to upload both documents. *)
Theorem page_without_text resume_file job_description_file pressed :
  (exists shown,
      load_raw_text File file_type extract_text Document Resume resume_file
      = Some ([], shown))
  \/ (exists shown,
         load_raw_text File file_type extract_text Document JobDescription
           job_description_file
         = Some ([], shown)) ->
  page lower_ext word_ext stop_words File file_type extract_text Document
    resume_file job_description_file pressed
  = None
  \/ exists shown,
       page lower_ext word_ext stop_words File file_type extract_text Document
         resume_file job_description_file pressed
       = Some (Returns shown)
       /\ (forall s, Score s ∉ shown)
       /\ (pressed = true -> WarningUploadBoth ∈ shown).
Proof.
  intros H. unfold page.
  destruct (load Resume resume_file) as [[raw_r shown_r]|] eqn:Er; [| now left].
  destruct (load JobDescription job_description_file) as [[raw_j shown_j]|] eqn:Ej;
    [| now left].
  right. simpl.
  assert (Hb : analyze_match lower_ext word_ext stop_words raw_r raw_j
               = Returns [WarningUploadBoth]).
  { apply analyze_match_empty.
    destruct H as [[sh H]|[sh H]]; injection H as -> _; auto. }
  assert (Hno : forall s shown,
             (forall s', Score s' ∉ shown) ->
             Score s ∉ [PageConfig; Title; Intro; UploadSubheader;
                        FileUploader Resume; FileUploader JobDescription]
                       ++ shown_r ++ shown_j ++ [AnalyzeButton] ++ shown
                       ++ [Divider; Footer]).
  { intros s shown Hsh Hs.
    apply elem_of_app in Hs as [Hs|Hs]; [not_shown Hs |].
    apply elem_of_app in Hs as [Hs|Hs].
    { destruct (load_raw_text_shown _ _ _ _ _ Er Hs); discriminate. }
    apply elem_of_app in Hs as [Hs|Hs].
    { destruct (load_raw_text_shown _ _ _ _ _ Ej Hs); discriminate. }
    apply elem_of_app in Hs as [Hs|Hs]; [not_shown Hs |].
    apply elem_of_app in Hs as [Hs|Hs]; [now apply (Hsh s) | not_shown Hs]. }
  rewrite Hb. destruct pressed; cbn [mbind outcome_bind];
    eexists; (split; [reflexivity |]); split.
  - intros s. apply Hno. intros s' Hs'. not_shown Hs'.
  - intros _. do 6 apply list_elem_of_further.
    apply elem_of_app; right. apply elem_of_app; right.
    apply list_elem_of_further, list_elem_of_here.
  - intros s. apply Hno. intros s' Hs'. not_shown Hs'.
  - discriminate.
Qed.
End PageFacts.

Section DocxWords.
Variable lower_ext : str -> str -> N -> list N.
Variable File : Type.
Variable Document : File -> option DocxDocument.

Local Abbreviation clean := (clean_text lower_ext).

(** What lies beyond the nearest white space, on either side, does not
    matter to the lower case of a code point. *)
Hypothesis lower_ext_before :
  forall far sp before after c,
    is_space sp = true ->
    lower_ext (far ++ sp :: before) after c = lower_ext before after c.
Hypothesis lower_ext_after :
  forall before after sp far c,
    is_space sp = true ->
    lower_ext before (after ++ sp :: far) c = lower_ext before after c.

(** X2: the words of the cleaned text of a DOCX file are the words of its
    cleaned paragraphs, paragraph after paragraph: no word runs over the
    end of a paragraph and none is lost. *)
Theorem extract_text_from_docx_words docx_file doc :
  Document docx_file = Some doc ->
  exists raw,
    extract_text_from_docx File Document docx_file = Some raw /\
    split (clean raw)
    = flat_map (fun para => split (clean (text para))) (paragraphs doc).
Proof.
  intros Hdoc. unfold extract_text_from_docx. rewrite Hdoc. simpl.
  eexists. split; [reflexivity |].
  rewrite split_clean_text.
  rewrite (letter_runs_joined_lines lower_ext lower_ext_before lower_ext_after).
  induction (paragraphs doc) as [|para paras IH]; [reflexivity |].
  rewrite fmap_cons. simpl. now rewrite IH, split_clean_text.
Qed.
End DocxWords.

Section CleanedText.
Variable lower_ext : str -> str -> N -> list N.

(** X1: the cleaned text is the runs of ASCII letters of the lower-cased
    text, joined by single spaces; these runs are its words. *)
Theorem clean_text_words s :
  split (clean_text lower_ext s)
  = runs is_ascii_letter (str_lower lower_ext s) /\
  clean_text lower_ext s
  = str_join [space] (runs is_ascii_letter (str_lower lower_ext s)).
Proof.
  split; [apply split_clean_text |].
  rewrite (clean_text_join_split lower_ext s) at 1.
  now rewrite split_clean_text.
Qed.
End CleanedText.

(** * A text written twice *)

Section Repeated.
Local Open Scope R_scope.

Lemma dot_self_zero x : dot x x = 0 -> Forall (fun a => a = 0) x.
Proof.
  induction x as [|a x IH]; [constructor |]. rewrite dot_cons. intros H.
  pose proof (dot_self_nonneg x) as Hx.
  assert (Ha : a = 0) by nra. subst a.
  constructor; [reflexivity |]. apply IH. lra.
Qed.

(** The normal form of a row does not change when the row is multiplied by
    a positive number. *)
Lemma l2_normalize_scale k x :
  0 < k -> l2_normalize ((fun a => a * k) <$> x) = l2_normalize x.
Proof.
  intros Hk. unfold l2_normalize. rewrite dot_scaled.
  pose proof (dot_self_nonneg x) as Hx.
  assert (Hs : sqrt (k * k * dot x x) = k * sqrt (dot x x)).
  { rewrite sqrt_mult by nra. rewrite sqrt_square by lra. reflexivity. }
  rewrite Hs.
  destruct (Req_dec_T (sqrt (dot x x)) 0) as [E|E].
  - rewrite E, Rmult_0_r. destruct (Req_dec_T 0 0) as [_|N]; [| done].
    pose proof (dot_self_zero x (sqrt_eq_0 _ Hx E)) as Hz.
    clear E Hx Hs. induction Hz as [|a x Ha _ IH]; [reflexivity |].
    rewrite fmap_cons, IH, Ha. f_equal. lra.
  - destruct (Req_dec_T (k * sqrt (dot x x)) 0) as [N|_].
    + apply Rmult_integral in N as [N|N]; [lra | contradiction].
    + rewrite <- list_fmap_compose. apply list_fmap_ext. intros _ a _. simpl.
      field. split; [exact E | lra].
Qed.

Lemma term_count_app t d1 d2 :
  term_count t (d1 ++ d2) = (term_count t d1 + term_count t d2)%nat.
Proof. unfold term_count. now rewrite filter_app, length_app. Qed.

Lemma document_frequency_twice t da db :
  document_frequency t [da ++ da; db] = document_frequency t [da; db].
Proof.
  unfold document_frequency. rewrite !filter_cons, !filter_nil.
  repeat case_decide; try reflexivity;
    rewrite elem_of_app in *; tauto.
Qed.

Lemma similarity_twice da db : similarity (da ++ da) db = similarity da db.
Proof.
  unfold similarity, weights.
  assert (Hv : vocabulary [da ++ da; db] = vocabulary [da; db]).
  { apply vocabulary_proper. intros t. simpl. rewrite !elem_of_app. tauto. }
  rewrite Hv. set (v := vocabulary [da; db]).
  assert (Hidf : forall t, idf [da ++ da; db] t = idf [da; db] t).
  { intros t. unfold idf. now rewrite document_frequency_twice. }
  assert (Ha : tfidf_row [da ++ da; db] v (da ++ da)
               = (fun a => a * 2) <$> tfidf_row [da; db] v da).
  { unfold tfidf_row. rewrite <- list_fmap_compose. apply list_fmap_ext.
    intros _ t _. simpl. rewrite Hidf, term_count_app, plus_INR. lra. }
  assert (Hb : tfidf_row [da ++ da; db] v db = tfidf_row [da; db] v db).
  { unfold tfidf_row. apply list_fmap_ext. intros _ t _. simpl.
    now rewrite Hidf. }
  rewrite Ha, Hb, l2_normalize_scale by lra. reflexivity.
Qed.
End Repeated.

Section RepeatedText.
Variable lower_ext : str -> str -> N -> list N.
Variable word_ext : N -> bool.
Variable stop_words : gset str.

Local Abbreviation analyze := (analyze lower_ext word_ext stop_words).
Local Abbreviation calculate_skill_match :=
  (calculate_skill_match lower_ext word_ext stop_words).

(** White space has no case. *)
Hypothesis lower_ext_space :
  forall before after c,
    (128 <= c)%N -> is_space c = true -> lower_ext before after c = [c].

(** What lies beyond the nearest white space, on either side, does not
    matter to the lower case of a code point. *)
Hypothesis lower_ext_before :
  forall far sp before after c,
    is_space sp = true ->
    lower_ext (far ++ sp :: before) after c = lower_ext before after c.
Hypothesis lower_ext_after :
  forall before after sp far c,
    is_space sp = true ->
    lower_ext before (after ++ sp :: far) c = lower_ext before after c.

(** White space is not a word character. *)
Hypothesis word_ext_space :
  forall c, (128 <= c)%N -> is_space c = true -> word_ext c = false.

Lemma analyze_twice a : analyze (a ++ space :: a) = analyze a ++ analyze a.
Proof.
  pose proof (analyze_split lower_ext word_ext stop_words lower_ext_space
                lower_ext_before lower_ext_after word_ext_space) as Hsplit.
  rewrite (Hsplit (a ++ space :: a)). unfold split, runs.
  rewrite runs_from_app_sep by reflexivity.
  rewrite flat_map_app. fold (runs (fun c => negb (is_space c)) a).
  fold (split a). now rewrite <- (Hsplit a).
Qed.

(** X5: a resume written twice in a row, with a space between the two
    copies, gets the score of the resume written once. *)
Theorem repeated_resume_same_score a b :
  a <> [] -> b <> [] ->
  score_of (calculate_skill_match (a ++ space :: a) b)
  = score_of (calculate_skill_match a b).
Proof.
  intros Ha Hb.
  rewrite !calculate_skill_match_nonempty by (try assumption; now destruct a).
  rewrite analyze_twice.
  assert (Hv : vocabulary [analyze a ++ analyze a; analyze b]
               = vocabulary [analyze a; analyze b]).
  { apply vocabulary_proper. intros t. simpl. rewrite !elem_of_app. tauto. }
  rewrite Hv. clear Hv. destruct (vocabulary _); [reflexivity |].
  unfold score_of. simpl. now rewrite similarity_twice.
Qed.
End RepeatedText.

(** * The score that the button shows *)

Section ButtonScore.
Variable lower_ext : str -> str -> N -> list N.
Variable word_ext : N -> bool.
Variable stop_words : gset str.

Local Abbreviation clean := (clean_text lower_ext).
Local Abbreviation matcher := (calculate_skill_match lower_ext word_ext stop_words).
Local Abbreviation button := (analyze_match lower_ext word_ext stop_words).


End ButtonScore.

(** * The further properties at concrete texts and files *)

Local Abbreviation latin_clean_text := (clean_text Latin.lower_ext).
Local Abbreviation latin_analyze_match :=
  (analyze_match Latin.lower_ext Latin.word_ext Latin.stop_words).
Local Abbreviation latin_page :=
  (page Latin.lower_ext Latin.word_ext Latin.stop_words
        Upload.file Upload.file_type Upload.extract_text Upload.Document).
Local Abbreviation latin_load_raw_text :=
  (load_raw_text Upload.file Upload.file_type Upload.extract_text
                 Upload.Document).

(** What a call returns on two non-empty texts of which one has a term. *)
Lemma latin_call_returns a b :
  a <> [] -> b <> [] -> vocabulary [latin_analyze a; latin_analyze b] <> [] ->
  latin_calculate_skill_match a b
  = Returns (similarity (latin_analyze a) (latin_analyze b), missing_terms a b).
Proof.
  intros Ha Hb Hv. rewrite calculate_skill_match_nonempty by assumption.
  now destruct (vocabulary _).
Qed.

(** What the button shows for two texts whose cleaned texts are not empty
    and of which one has a term. *)
Lemma latin_button_returns r j :
  latin_clean_text r <> [] -> latin_clean_text j <> [] ->
  vocabulary [latin_analyze (latin_clean_text r);
              latin_analyze (latin_clean_text j)] <> [] ->
  latin_analyze_match r j
  = Returns (results_shown
               (similarity (latin_analyze (latin_clean_text r))
                           (latin_analyze (latin_clean_text j)),
                missing_terms (latin_clean_text r) (latin_clean_text j))).
Proof.
  intros Hr Hj Hv.
  rewrite analyze_match_nonempty
    by (intros ->; first [now apply Hr | now apply Hj]).
  now rewrite latin_call_returns.
Qed.

(** A resume and a job description without a common term. *)
Lemma score_zero_iff_no_common_term_witness :
  lit "python" <> [] /\ lit "java sql" <> [] /\
  latin_calculate_skill_match (lit "python") (lit "java sql")
  = Returns (similarity (latin_analyze (lit "python"))
               (latin_analyze (lit "java sql")),
             missing_terms (lit "python") (lit "java sql")) /\
  (similarity (latin_analyze (lit "python")) (latin_analyze (lit "java sql"))
   = 0%R
   <-> forall t, t ∈ latin_analyze (lit "python") ->
                 t ∉ latin_analyze (lit "java sql")).
Proof.
  assert (H : latin_calculate_skill_match (lit "python") (lit "java sql")
              = Returns (similarity (latin_analyze (lit "python"))
                           (latin_analyze (lit "java sql")),
                         missing_terms (lit "python") (lit "java sql")))
    by (apply latin_call_returns; by_evaluation).
  split; [by_evaluation |]. split; [by_evaluation |]. split; [exact H |].
  apply (score_zero_iff_no_common_term Latin.lower_ext Latin.word_ext
           Latin.stop_words (lit "python") (lit "java sql")
           (similarity (latin_analyze (lit "python"))
              (latin_analyze (lit "java sql")))
           (missing_terms (lit "python") (lit "java sql")));
    [by_evaluation | by_evaluation | exact H].
Defined.


(** A resume of two words, written twice. *)
Lemma repeated_resume_same_score_witness :
  (forall before after c,
      (128 <= c)%N -> is_space c = true ->
      Latin.lower_ext before after c = [c]) /\
  (forall far sp before after c,
      is_space sp = true ->
      Latin.lower_ext (far ++ sp :: before) after c
      = Latin.lower_ext before after c) /\
  (forall before after sp far c,
      is_space sp = true ->
      Latin.lower_ext before (after ++ sp :: far) c
      = Latin.lower_ext before after c) /\
  (forall c, (128 <= c)%N -> is_space c = true -> Latin.word_ext c = false) /\
  lit "python sql" <> [] /\ lit "sql java" <> [] /\
  score_of (latin_calculate_skill_match
              (lit "python sql" ++ Char.space :: lit "python sql")
              (lit "sql java"))
  = score_of (latin_calculate_skill_match (lit "python sql") (lit "sql java")).
Proof.
  split; [exact latin_lower_ext_space |].
  split; [exact latin_lower_ext_before |].
  split; [exact latin_lower_ext_after |].
  split; [exact latin_word_ext_space |].
  do 2 (split; [by_evaluation |]).
  apply (repeated_resume_same_score Latin.lower_ext Latin.word_ext
           Latin.stop_words latin_lower_ext_space latin_lower_ext_before
           latin_lower_ext_after latin_word_ext_space);
    by_evaluation.
Defined.

(** The digits, the hyphen and the space have no letter as lower case. *)
Lemma years_without_letters before after c d :
  c ∈ lit "2019 - 2024" -> d ∈ lower_char Latin.lower_ext before after c ->
  is_ascii_letter d = false.
Proof.
  intros Hc Hd. vm_compute in Hc.
  repeat (apply elem_of_cons in Hc as [-> | Hc];
          [vm_compute in Hd; apply list_elem_of_singleton in Hd as ->;
           reflexivity |]).
  now apply elem_of_nil in Hc.
Qed.

(** A resume that holds two years only, against a job description. *)
Lemma button_text_without_letters_witness :
  lit "2019 - 2024" <> [] /\ lit "Python developer" <> [] /\
  ((forall before after c d,
       c ∈ lit "2019 - 2024" ->
       d ∈ lower_char Latin.lower_ext before after c ->
       is_ascii_letter d = false)
   \/ (forall before after c d,
          c ∈ lit "Python developer" ->
          d ∈ lower_char Latin.lower_ext before after c ->
          is_ascii_letter d = false)) /\
  latin_analyze_match (lit "2019 - 2024") (lit "Python developer")
  = Returns [ResultsSubheader; Score 0%R; Divider; MissingSubheader;
             SuccessNoMissing; InfoCovered].
Proof.
  do 2 (split; [by_evaluation |]).
  split; [left; exact years_without_letters |].
  apply button_text_without_letters;
    [by_evaluation | by_evaluation | left; exact years_without_letters].
Defined.

(** A resume that has every word of the job description. *)
Lemma button_success_iff_witness :
  latin_clean_text (lit "Java, SQL and Python!") <> [] /\
  latin_clean_text (lit "python; java") <> [] /\
  latin_analyze_match (lit "Java, SQL and Python!") (lit "python; java")
  = Returns (results_shown
               (similarity
                  (latin_analyze (latin_clean_text (lit "Java, SQL and Python!")))
                  (latin_analyze (latin_clean_text (lit "python; java"))),
                missing_terms (latin_clean_text (lit "Java, SQL and Python!"))
                              (latin_clean_text (lit "python; java")))) /\
  (SuccessNoMissing
   ∈ results_shown
       (similarity
          (latin_analyze (latin_clean_text (lit "Java, SQL and Python!")))
          (latin_analyze (latin_clean_text (lit "python; java"))),
        missing_terms (latin_clean_text (lit "Java, SQL and Python!"))
                      (latin_clean_text (lit "python; java")))
   <-> forall w, w ∈ split (latin_clean_text (lit "python; java")) ->
                 w ∈ split (latin_clean_text (lit "Java, SQL and Python!"))).
Proof.
  assert (H : latin_analyze_match (lit "Java, SQL and Python!")
                (lit "python; java")
              = Returns (results_shown
                  (similarity
                     (latin_analyze
                        (latin_clean_text (lit "Java, SQL and Python!")))
                     (latin_analyze (latin_clean_text (lit "python; java"))),
                   missing_terms
                     (latin_clean_text (lit "Java, SQL and Python!"))
                     (latin_clean_text (lit "python; java")))))
    by (apply latin_button_returns; by_evaluation).
  do 2 (split; [by_evaluation |]). split; [exact H |].
  apply (button_success_iff Latin.lower_ext Latin.word_ext Latin.stop_words
           (lit "Java, SQL and Python!") (lit "python; java"));
    [by_evaluation | by_evaluation | exact H].
Defined.

(** Two uploads whose words are single letters and stop words. *)
Lemma button_raises_iff_witness :
  (forall before after c d,
      (128 <= c)%N -> d ∈ Latin.lower_ext before after c ->
      Char.is_upper d = false) /\
  (latin_analyze_match (lit "A+ in C") (lit "the R of X")
   = Raises ValueError_empty_vocabulary
   <-> ValueError_empty_vocabulary = ValueError_empty_vocabulary /\
       latin_clean_text (lit "A+ in C") <> [] /\
       latin_clean_text (lit "the R of X") <> [] /\
       forall w, w ∈ split (latin_clean_text (lit "A+ in C"))
                 \/ w ∈ split (latin_clean_text (lit "the R of X")) ->
                 (length w < 2)%nat \/ w ∈ Latin.stop_words).
Proof.
  split; [exact latin_lower_ext_no_upper |].
  apply (button_raises_iff Latin.lower_ext Latin.word_ext Latin.stop_words
           latin_lower_ext_no_upper).
Defined.

(** A resume that lacks two words of the job description. *)
Lemma button_listed_keywords_witness :
  (forall before after c d,
      (128 <= c)%N -> d ∈ Latin.lower_ext before after c ->
      Char.is_upper d = false) /\
  latin_analyze_match (lit "Cat, dog.") (lit "Dog; FISH & bird")
  = Returns (results_shown
               (similarity
                  (latin_analyze (latin_clean_text (lit "Cat, dog.")))
                  (latin_analyze (latin_clean_text (lit "Dog; FISH & bird"))),
                missing_terms (latin_clean_text (lit "Cat, dog."))
                              (latin_clean_text (lit "Dog; FISH & bird")))) /\
  MissingList [lit "bird"; lit "fish"]
  ∈ results_shown
      (similarity
         (latin_analyze (latin_clean_text (lit "Cat, dog.")))
         (latin_analyze (latin_clean_text (lit "Dog; FISH & bird"))),
       missing_terms (latin_clean_text (lit "Cat, dog."))
                     (latin_clean_text (lit "Dog; FISH & bird"))) /\
  [lit "bird"; lit "fish"] <> [] /\
  StronglySorted str_le [lit "bird"; lit "fish"] /\
  NoDup [lit "bird"; lit "fish"] /\
  (forall w, w ∈ [lit "bird"; lit "fish"] <->
             w ∈ split (latin_clean_text (lit "Dog; FISH & bird")) /\
             w ∉ split (latin_clean_text (lit "Cat, dog."))) /\
  (forall w c, w ∈ [lit "bird"; lit "fish"] -> c ∈ w -> Char.is_az c = true).
Proof.
  assert (H : latin_analyze_match (lit "Cat, dog.") (lit "Dog; FISH & bird")
              = Returns (results_shown
                  (similarity
                     (latin_analyze (latin_clean_text (lit "Cat, dog.")))
                     (latin_analyze
                        (latin_clean_text (lit "Dog; FISH & bird"))),
                   missing_terms (latin_clean_text (lit "Cat, dog."))
                     (latin_clean_text (lit "Dog; FISH & bird")))))
    by (apply latin_button_returns; by_evaluation).
  assert (E : missing_terms (latin_clean_text (lit "Cat, dog."))
                (latin_clean_text (lit "Dog; FISH & bird"))
              = [lit "bird"; lit "fish"]) by by_evaluation.
  assert (Hl : MissingList [lit "bird"; lit "fish"]
               ∈ results_shown
                   (similarity
                      (latin_analyze (latin_clean_text (lit "Cat, dog.")))
                      (latin_analyze
                         (latin_clean_text (lit "Dog; FISH & bird"))),
                    missing_terms (latin_clean_text (lit "Cat, dog."))
                      (latin_clean_text (lit "Dog; FISH & bird")))).
  { unfold results_shown. cbn [fst snd]. rewrite E.
    do 5 apply list_elem_of_further. apply list_elem_of_here. }
  split; [exact latin_lower_ext_no_upper |].
  split; [exact H |]. split; [exact Hl |].
  exact (button_listed_keywords Latin.lower_ext Latin.word_ext
           Latin.stop_words latin_lower_ext_no_upper
           (lit "Cat, dog.") (lit "Dog; FISH & bird") _ _ H Hl).
Defined.


(** A text file as resume beside a PDF as job description, and a press on
    the button. *)
Lemma page_without_text_witness :
  ((exists shown,
       latin_load_raw_text Resume (Some (Upload.Other (lit "text/plain")))
       = Some ([], shown))
   \/ (exists shown,
          latin_load_raw_text JobDescription
            (Some (Upload.Pdf (lit "Python developer")))
          = Some ([], shown))) /\
  (latin_page (Some (Upload.Other (lit "text/plain")))
     (Some (Upload.Pdf (lit "Python developer"))) true = None
   \/ exists shown,
        latin_page (Some (Upload.Other (lit "text/plain")))
          (Some (Upload.Pdf (lit "Python developer"))) true
        = Some (Returns shown)
        /\ (forall s, Score s ∉ shown)
        /\ (true = true -> WarningUploadBoth ∈ shown)).
Proof.
  assert (H : (exists shown,
                  latin_load_raw_text Resume
                    (Some (Upload.Other (lit "text/plain")))
                  = Some ([], shown))
              \/ (exists shown,
                     latin_load_raw_text JobDescription
                       (Some (Upload.Pdf (lit "Python developer")))
                     = Some ([], shown))).
  { left. exists [Spinner Resume; ErrorUnsupported Resume]. by_evaluation. }
  split; [exact H |].
  exact (page_without_text Latin.lower_ext Latin.word_ext Latin.stop_words
           Upload.file Upload.file_type Upload.extract_text Upload.Document
           _ _ true H).
Defined.

(** A DOCX file of two paragraphs. *)
Lemma extract_text_from_docx_words_witness :
  (forall far sp before after c,
      is_space sp = true ->
      Latin.lower_ext (far ++ sp :: before) after c
      = Latin.lower_ext before after c) /\
  (forall before after sp far c,
      is_space sp = true ->
      Latin.lower_ext before (after ++ sp :: far) c
      = Latin.lower_ext before after c) /\
  Upload.Document (Upload.Docx [lit "Python"; lit "SQL, Java"])
  = Some {| paragraphs := [{| text := lit "Python" |};
                           {| text := lit "SQL, Java" |}] |} /\
  exists raw,
    extract_text_from_docx Upload.file Upload.Document
      (Upload.Docx [lit "Python"; lit "SQL, Java"]) = Some raw /\
    split (latin_clean_text raw)
    = flat_map (fun para => split (latin_clean_text (text para)))
        (paragraphs {| paragraphs := [{| text := lit "Python" |};
                                      {| text := lit "SQL, Java" |}] |}).
Proof.
  split; [exact latin_lower_ext_before |].
  split; [exact latin_lower_ext_after |].
  split; [reflexivity |].
  apply (extract_text_from_docx_words Latin.lower_ext Upload.file
           Upload.Document latin_lower_ext_before latin_lower_ext_after).
  reflexivity.
Defined.
